(** * installed-check-core: the orchestrator [installedCheck] of index.js

    A shallow embedding of [installedCheck] and the properties of its
    check contexts and of the order of its result lines.

    The function is asynchronous JavaScript that reads two collaborators
    (read-pkg and list-installed), builds objects and Maps that are shared
    by reference, and mutates some of them.  The embedding therefore keeps
    - a store of JavaScript objects and Maps, addressed by location;
    - the sequence of reads that were started;
    - a schedule: the order in which concurrent reads settle;
    - exceptions as the left summand of the result.

    The file has three parts: the embedding of index.js, the definitions
    that the statements use (with a few sample disks to run the embedding
    on), and the lemmas, which end with the properties C1 to C10. *)

From stdpp Require Import base strings gmap list.

(** ** Values *)

(** A plain object used as a dictionary from names to range specifiers
    (the [dependencies], [engines], ... fields of a package.json). *)
Abbreviation Obj := (gmap string string).

(** What list-installed reports for one installed package. *)
Record InstalledPackage := mkInstalledPackage {
  version : string;
  installed_engines : option Obj;
}.

(** The [Map] from package name to installed package. *)
Abbreviation InstalledMap := (gmap string InstalledPackage).

(** [Error] and pony-cause's [ErrorWithCause]. *)
Inductive JsError : Type :=
| Error (message : string)
| ErrorWithCause (message : string) (cause : JsError).

(** A package.json as read-pkg yields it.  A field is absent ([None],
    JavaScript [undefined]) or an object; [R] is the representation of an
    object: its contents on disk, its location once it is in the store.
    The [workspaces] field is absent or an array of strings, the ordered
    sequence of the manifest reader's contract; a manifest in which it has
    another shape is not among the inputs of this embedding. *)
Record PackageJson (R : Type) := mkPackageJson {
  pkg_dependencies : option R;
  pkg_devDependencies : option R;
  pkg_optionalDependencies : option R;
  pkg_engines : option R;
  pkg_workspaces : option (list string);
}.
Arguments mkPackageJson {R} _ _ _ _ _.
Arguments pkg_dependencies {R} _.
Arguments pkg_devDependencies {R} _.
Arguments pkg_optionalDependencies {R} _.
Arguments pkg_engines {R} _.
Arguments pkg_workspaces {R} _.

(** [InstalledCheckOptions]: every property may be left [undefined]. *)
Record InstalledCheckOptions := mkOptions {
  opt_path : option string;
  opt_engineCheck : option bool;
  opt_engineIgnores : option (list string);
  opt_engineNoDev : option bool;
  opt_versionCheck : option bool;
  opt_traverseWorkspaces : option bool;
}.

(** [InstalledCheckResult]. *)
Record InstalledCheckResult := mkResult {
  errors : list string;
  warnings : list string;
  notices : list string;
}.

(** What an evaluator returns: [{ errors, warnings }]. *)
Record EvaluatorResult := mkEvaluatorResult {
  result_errors : list string;
  result_warnings : list string;
}.

(** ** The store *)

Abbreviation loc := nat.

Inductive IOEvent : Type :=
| ReadPackage (cwd : string)
| ListInstalled (path : string).

Record Heap := mkHeap {
  objects : list Obj;
  maps : list InstalledMap;
  io : list IOEvent;
}.

Definition emptyHeap : Heap := mkHeap [] [] [].

(** One element of the [checks] array.  Its object-valued properties are
    references into the store. *)
Record Check := mkCheck {
  subpath : option string;
  engines : loc;
  dependencies : loc;
  requiredDependencies : loc;
  optionalDependencies : loc;
  installedDependencies : loc;
}.

(** ** Computations: store passing with exceptions *)

Definition M (A : Type) : Type := Heap → Heap * (JsError + A).

#[export] Instance M_ret : MRet M := λ A (x : A) σ, (σ, inr x).

#[export] Instance M_bind : MBind M := λ A B (f : A → M B) (m : M A) σ,
  match m σ with
  | (σ', inr x) => f x σ'
  | (σ', inl e) => (σ', inl e)
  end.

Definition throw {A} (e : JsError) : M A := λ σ, (σ, inl e).

Fixpoint foldM {A B} (f : B → A → M B) (b : B) (l : list A) : M B :=
  match l with
  | [] => mret b
  | x :: l => b' ← f b x; foldM f b' l
  end.

(** The contents of the object, or of the Map, at a location. *)
Definition objectAt (σ : Heap) (l : loc) : Obj := default ∅ (objects σ !! l).
Definition mapAt (σ : Heap) (l : loc) : InstalledMap := default ∅ (maps σ !! l).

(** Object literals, property reads and writes. *)
Definition newObject (o : Obj) : M loc := λ σ,
  (mkHeap (objects σ ++ [o]) (maps σ) (io σ), inr (length (objects σ))).

Definition getObject (l : loc) : M Obj := λ σ,
  (σ, inr (objectAt σ l)).

Definition setObject (l : loc) (o : Obj) : M unit := λ σ,
  (mkHeap (<[l := o]> (objects σ)) (maps σ) (io σ), inr ()).

Definition newMapObject (m : InstalledMap) : M loc := λ σ,
  (mkHeap (objects σ) (maps σ ++ [m]) (io σ), inr (length (maps σ))).

Definition getMap (l : loc) : M InstalledMap := λ σ,
  (σ, inr (mapAt σ l)).

Definition setMap (l : loc) (m : InstalledMap) : M unit := λ σ,
  (mkHeap (objects σ) (<[l := m]> (maps σ)) (io σ), inr ()).

(** [obj[key] = value] on a plain object, one whose prototype is
    [Object.prototype]; this is the assignment that [Object.assign]
    performs for every property it copies.  A key that the object has as
    an own property, and any key other than [__proto__], is written as an
    own property.  The key [__proto__] that is not an own property reaches
    the accessor that the object inherits from [Object.prototype], whose
    setter replaces the prototype when the value is an object or null and
    ignores any other value.  The values here are range strings: that
    assignment stores nothing. *)
Definition setProperty (l : loc) (key value : string) : M unit :=
  o ← getObject l;
  if decide (key = "__proto__" ∧ o !! key = None) then mret ()
  else setObject l (<[key := value]> o).

(** [Object.assign(target, ...sources)]: assigns the own properties of each
    source to the target, property by property, later sources overwriting,
    and returns the target. *)
Definition Object_assign (target : loc) (sources : list loc) : M loc :=
  _ ← foldM (λ (_ : unit) source,
        s ← getObject source;
        foldM (λ (_ : unit) kv, setProperty target kv.1 kv.2) () (map_to_list s))
      () sources;
  mret target.

(** [delete obj[name]]. *)
Definition deleteProperty (l : loc) (name : string) : M unit :=
  o ← getObject l;
  setObject l (delete name o).

(** [x || {}] on a field that is an object or undefined: an object is
    truthy, also an empty one. *)
Definition orEmpty (x : option loc) : M loc :=
  match x with
  | Some l => mret l
  | None => newObject ∅
  end.

(** [Object.assign({}, x1 || {}, ..., xn || {})]: the target literal is
    evaluated first, then the source expressions from left to right, then
    the properties are copied. *)
Definition assignDefaults (fields : list (option loc)) : M loc :=
  target ← newObject ∅;
  sources ← mapM orEmpty fields;
  Object_assign target sources.

(** [x || y || {}]. *)
Definition orElseEmpty (x y : option loc) : M loc :=
  match x with
  | Some l => mret l
  | None => orEmpty y
  end.

(** [new Map(m)]: a new Map with the entries of [m]. *)
Definition Map_copy (m : loc) : M loc :=
  entries ← getMap m;
  newMapObject entries.

(** [m.set(key, value)]. *)
Definition Map_set (m : loc) (key : string) (value : InstalledPackage) : M unit :=
  entries ← getMap m;
  setMap m (<[key := value]> entries).

(** [m.forEach((value, key) => f(value, key))]. *)
Definition Map_forEach (m : loc) (f : InstalledPackage → string → M unit) : M unit :=
  entries ← getMap m;
  foldM (λ (_ : unit) kv, f kv.2 kv.1) () (map_to_list entries).

(** ** Promises

    A promise is modelled by its outcome.  The order in which concurrent
    promises settle is the schedule's. *)
Definition Promise (A : Type) : Type := (JsError + A)%type.

(** [p.catch(handler)]. *)
Definition catch {A} (p : Promise A) (handler : JsError → Promise A) : Promise A :=
  match p with
  | inl err => handler err
  | inr v => inr v
  end.

(** [Promise.all([p, q])]: fulfilled with both values, or rejected with
    the reason of the promise that is rejected first. *)
Definition Promise_all2 {A B} (left_settles_first : bool)
    (p : Promise A) (q : Promise B) : Promise (A * B) :=
  match p, q with
  | inr a, inr b => inr (a, b)
  | inl e, inr _ => inl e
  | inr _, inl e => inl e
  | inl e1, inl e2 => inl (if left_settles_first then e1 else e2)
  end.

(** [await p]. *)
Definition await {A} (p : Promise A) : M A :=
  match p with
  | inl e => throw e
  | inr v => mret v
  end.

(** The on-disk state, as the two readers see it. *)
Record Disk := mkDisk {
  disk_readPackage : string → JsError + PackageJson Obj;
  disk_listInstalled : string → JsError + InstalledMap;
}.

(** The order in which concurrent reads settle: which of the two root
    reads settles first, and the order in which the workspace members'
    fetches settle (indices into the filtered workspaces list). *)
Record Schedule := mkSchedule {
  root_manifest_first : bool;
  member_order : list nat;
}.

(** JavaScript truthiness of a string. *)
Definition truthy (s : string) : bool :=
  match s with
  | EmptyString => false
  | String _ _ => true
  end.

(** The fulfilment value of read-pkg enters the store: one object per
    field that is present. *)
Definition allocField (f : option Obj) : M (option loc) :=
  match f with
  | Some o => l ← newObject o; mret (Some l)
  | None => mret None
  end.

Definition allocPackage (p : PackageJson Obj) : M (PackageJson loc) :=
  d ← allocField (pkg_dependencies p);
  dd ← allocField (pkg_devDependencies p);
  od ← allocField (pkg_optionalDependencies p);
  e ← allocField (pkg_engines p);
  mret (mkPackageJson d dd od e (pkg_workspaces p)).

Section installedCheck.

(** The two evaluators live in ./lib, which is not among the sources at
    hand.  They are parameters here: functions of the contents of their
    arguments that leave the store alone (the specification calls them
    pure and synchronous). *)
Variable checkPackageVersions : Obj → InstalledMap → Obj → EvaluatorResult.
Variable checkEngineVersions : Obj → Obj → InstalledMap → Obj → EvaluatorResult.

Variable disk : Disk.
Variable schedule : Schedule.

(** [readPackage({ cwd })]: the read is started; its outcome is the
    disk's. *)
Definition readPackage (cwd : string) : M (Promise (PackageJson Obj)) := λ σ,
  (mkHeap (objects σ) (maps σ) (io σ ++ [ReadPackage cwd]),
   inr (disk_readPackage disk cwd)).

(** [listInstalled(path)]. *)
Definition listInstalled (path : string) : M (Promise InstalledMap) := λ σ,
  (mkHeap (objects σ) (maps σ) (io σ ++ [ListInstalled path]),
   inr (disk_listInstalled disk path)).

(** Lines 59-68: the root context. *)
Definition mainCheck (mainPackage : PackageJson loc)
    (mainInstalledDependencies : loc) : M Check :=
  mainRequiredDependencies ← assignDefaults
    [pkg_dependencies mainPackage; pkg_devDependencies mainPackage];
  mainOptionalDependencies ← assignDefaults [pkg_optionalDependencies mainPackage];
  engines ← orEmpty (pkg_engines mainPackage);
  dependencies ← orEmpty (pkg_dependencies mainPackage);
  mret {| subpath := None;
          engines := engines;
          dependencies := dependencies;
          requiredDependencies := mainRequiredDependencies;
          optionalDependencies := mainOptionalDependencies;
          installedDependencies := mainInstalledDependencies |}.

(** Lines 81-92: the [then] callback of one workspace member. *)
Definition workspaceCheck (mainPackage : PackageJson loc)
    (mainInstalledDependencies : loc) (subpath : string)
    (subPackage : PackageJson loc) (subInstalled : loc) : M Check :=
  installedDependencies ← Map_copy mainInstalledDependencies;
  _ ← Map_forEach subInstalled (λ value key, Map_set installedDependencies key value);
  engines ← orElseEmpty (pkg_engines subPackage) (pkg_engines mainPackage);
  dependencies ← orElseEmpty (pkg_dependencies subPackage) (pkg_dependencies mainPackage);
  requiredDependencies ← assignDefaults
    [pkg_dependencies subPackage; pkg_devDependencies subPackage];
  optionalDependencies ← assignDefaults [pkg_optionalDependencies subPackage];
  mret {| subpath := Some subpath;
          engines := engines;
          dependencies := dependencies;
          requiredDependencies := requiredDependencies;
          optionalDependencies := optionalDependencies;
          installedDependencies := installedDependencies |}.

(** A workspace member whose two reads have been started (lines 75-81). *)
Record Fetch := mkFetch {
  fetch_subpath : string;
  fetch_package : Promise (PackageJson Obj);
  fetch_installed : Promise InstalledMap;
}.

Definition fetchWorkspace (path w : string) : M Fetch :=
  let subpath := path +:+ "/" +:+ w in
  p ← readPackage subpath;
  q ← listInstalled subpath;
  mret (mkFetch subpath
    (catch p (λ err, inl (ErrorWithCause "Failed to read workspace package.json" err)))
    (catch q (λ _, inr ∅))).

(** One member's fetch settles: either it rejects, and with it the outer
    [Promise.all] and the [await], or its [then] callback pushes the
    member's context.  The second promise of the pair never rejects, so
    which of the two settles first is immaterial. *)
Definition settleWorkspace (mainPackage : PackageJson loc)
    (mainInstalledDependencies : loc) (checks : list Check) (f : Fetch)
    : M (list Check) :=
  '(subPackage, subInstalled) ←
    await (Promise_all2 true (fetch_package f) (fetch_installed f));
  subPackage ← allocPackage subPackage;
  subInstalled ← newMapObject subInstalled;
  check ← workspaceCheck mainPackage mainInstalledDependencies (fetch_subpath f)
             subPackage subInstalled;
  mret (checks ++ [check]).

(** Lines 70-95.  The reads of all members are started in the declared
    order; the fetches settle in the schedule's order. *)
Definition workspaceChecks (path : string) (traverseWorkspaces : bool)
    (mainPackage : PackageJson loc) (mainInstalledDependencies : loc)
    (checks : list Check) : M (list Check) :=
  match (if traverseWorkspaces then pkg_workspaces mainPackage else None) with
  | Some workspaces =>
    fetches ← mapM (fetchWorkspace path) (filter (λ w, w ≠ ".") workspaces);
    foldM (settleWorkspace mainPackage mainInstalledDependencies) checks
      (omap (λ i, fetches !! i) (member_order schedule))
  | None => mret checks
  end.

(** Lines 45-95: the [checks] array. *)
Definition buildChecks (path : string) (traverseWorkspaces : bool) : M (list Check) :=
  p ← readPackage path;
  q ← listInstalled path;
  '(mainPackage, mainInstalled) ← await (Promise_all2 (root_manifest_first schedule)
      (catch p (λ err, inl (ErrorWithCause "Failed to read package.json" err)))
      (catch q (λ err, inl (ErrorWithCause "Failed to list installed modules" err))));
  mainPackage ← allocPackage mainPackage;
  mainInstalledDependencies ← newMapObject mainInstalled;
  check ← mainCheck mainPackage mainInstalledDependencies;
  workspaceChecks path traverseWorkspaces mainPackage mainInstalledDependencies [check].

(** [str => check.subpath ? '[' + check.subpath + '] ' + str : str]. *)
Definition label (check : Check) (str : string) : string :=
  match subpath check with
  | Some s => if truthy s then "[" +:+ s +:+ "] " +:+ str else str
  | None => str
  end.

(** The accumulators [errors] and [warnings]. *)
Definition Lines : Type := list string * list string.

Definition addLines (acc : Lines) (check : Check) (r : EvaluatorResult) : Lines :=
  (acc.1 ++ map (label check) (result_errors r),
   acc.2 ++ map (label check) (result_warnings r)).

(** Line 104: the arguments of the version evaluator. *)
Definition versionArguments (check : Check) : M (Obj * InstalledMap * Obj) :=
  required ← getObject (requiredDependencies check);
  installed ← getMap (installedDependencies check);
  optional ← getObject (optionalDependencies check);
  mret (required, installed, optional).

(** Lines 103-107: the body of the version loop. *)
Definition versionStep (acc : Lines) (check : Check) : M Lines :=
  '(required, installed, optional) ← versionArguments check;
  let packageResult := checkPackageVersions required installed optional in
  mret (addLines acc check packageResult).

(** Lines 112-116: the copy that the engine evaluator is given. *)
Definition engineDependencies (engineNoDev : bool) (engineIgnores : list string)
    (check : Check) : M loc :=
  target ← newObject ∅;
  dependencies ← Object_assign target
    [if engineNoDev then dependencies check else requiredDependencies check];
  _ ← foldM (λ (_ : unit) name, deleteProperty dependencies name) () engineIgnores;
  mret dependencies.

(** Lines 118-123: the arguments of the engine evaluator. *)
Definition engineArguments (engineNoDev : bool) (engineIgnores : list string)
    (check : Check) : M (Obj * Obj * InstalledMap * Obj) :=
  dependencies ← engineDependencies engineNoDev engineIgnores check;
  engines ← getObject (engines check);
  dependencies ← getObject dependencies;
  installed ← getMap (installedDependencies check);
  optional ← getObject (optionalDependencies check);
  mret (engines, dependencies, installed, optional).

(** Lines 111-127: the body of the engine loop. *)
Definition engineStep (engineNoDev : bool) (engineIgnores : list string)
    (acc : Lines) (check : Check) : M Lines :=
  '(engines, dependencies, installed, optional) ←
    engineArguments engineNoDev engineIgnores check;
  let engineResult := checkEngineVersions engines dependencies installed optional in
  mret (addLines acc check engineResult).

(** Lines 97-130. *)
Definition runChecks (engineCheck versionCheck engineNoDev : bool)
    (engineIgnores : list string) (checks : list Check) : M InstalledCheckResult :=
  acc ← (if versionCheck then foldM versionStep ([], []) checks else mret ([], []));
  acc ← (if engineCheck then foldM (engineStep engineNoDev engineIgnores) acc checks
         else mret acc);
  mret {| errors := acc.1; warnings := acc.2; notices := [] |}.

Definition installedCheck (options : option InstalledCheckOptions)
    : M InstalledCheckResult :=
  match options with
  | None => throw (Error "Expected options to be set")
  | Some options =>
    let engineCheck := default false (opt_engineCheck options) in
    let engineIgnores := default [] (opt_engineIgnores options) in
    let engineNoDev := default false (opt_engineNoDev options) in
    let path := default "." (opt_path options) in
    let versionCheck := default false (opt_versionCheck options) in
    let traverseWorkspaces := default true (opt_traverseWorkspaces options) in
    if negb engineCheck && negb versionCheck then
      throw (Error "Expected to run at least one check. Add engineCheck and/or versionCheck")
    else
      checks ← buildChecks path traverseWorkspaces;
      runChecks engineCheck versionCheck engineNoDev engineIgnores checks
  end.

End installedCheck.

(** * Definitions for the statements

    Nothing below is part of the embedding.  These are the predicates on
    the store, the contents of a context as read off the store
    ([viewCheck]), and closed descriptions of what [buildChecks]
    ([contextViews]) and the two loops ([resultOf]) compute; the lemmas
    further down prove that the embedding computes what they describe. *)

(** A location is allocated. *)
Definition validObject (σ : Heap) (l : loc) : Prop := l < length (objects σ).
Definition validMap (σ : Heap) (l : loc) : Prop := l < length (maps σ).

(** The store grew by allocation only: what was there is still there,
    unchanged. *)
Definition extends (σ σ' : Heap) : Prop :=
  objects σ `prefix_of` objects σ' ∧
  maps σ `prefix_of` maps σ' ∧
  io σ `prefix_of` io σ'.

(** A field of a package.json that is in the store. *)
Definition validField (σ : Heap) (f : option loc) : Prop :=
  ∀ l, f = Some l → validObject σ l.

(** The contents of a field, [{}] when it is absent. *)
Definition fieldAt (σ : Heap) (f : option loc) : Obj :=
  from_option (objectAt σ) ∅ f.

(** [t] after [t[key] = value]. *)
Definition stored (t : Obj) (key value : string) : Obj :=
  if decide (key = "__proto__" ∧ t !! key = None) then t else <[key := value]> t.

(** The properties of [s] that [Object.assign] writes to [t]: all of them,
    but for [__proto__] when [t] does not have it as an own property. *)
Definition assignable (t s : Obj) : Obj :=
  if decide (t !! "__proto__" = None) then delete "__proto__" s else s.

(** The properties of the sources, assigned in order to [t]. *)
Definition assigned (t : Obj) (sources : list Obj) : Obj :=
  foldl (λ t s, assignable t s ∪ t) t sources.

(** The contents of [Object.assign({}, o)]: the properties of [o] other
    than [__proto__]. *)
Definition copyOf (o : Obj) : Obj := delete "__proto__" o.

(** Every field of the package.json at [p] that is present is allocated. *)
Definition validPackage (σ : Heap) (p : PackageJson loc) : Prop :=
  validField σ (pkg_dependencies p) ∧
  validField σ (pkg_devDependencies p) ∧
  validField σ (pkg_optionalDependencies p) ∧
  validField σ (pkg_engines p).

(** The contents of the package.json at [p]. *)
Definition packageAt (σ : Heap) (p : PackageJson loc) : PackageJson Obj :=
  mkPackageJson
    (objectAt σ <$> pkg_dependencies p)
    (objectAt σ <$> pkg_devDependencies p)
    (objectAt σ <$> pkg_optionalDependencies p)
    (objectAt σ <$> pkg_engines p)
    (pkg_workspaces p).

(** The contents of a check context. *)
Record CheckView := mkCheckView {
  view_subpath : option string;
  view_engines : Obj;
  view_dependencies : Obj;
  view_requiredDependencies : Obj;
  view_optionalDependencies : Obj;
  view_installedDependencies : InstalledMap;
}.

(** What the properties of [c] refer to in the store [σ]. *)
Definition viewCheck (σ : Heap) (c : Check) : CheckView :=
  mkCheckView (subpath c)
    (objectAt σ (engines c))
    (objectAt σ (dependencies c))
    (objectAt σ (requiredDependencies c))
    (objectAt σ (optionalDependencies c))
    (mapAt σ (installedDependencies c)).

(** Every property of [c] refers to an allocated object or Map. *)
Definition validCheck (σ : Heap) (c : Check) : Prop :=
  validObject σ (engines c) ∧
  validObject σ (dependencies c) ∧
  validObject σ (requiredDependencies c) ∧
  validObject σ (optionalDependencies c) ∧
  validMap σ (installedDependencies c).

(** The root context of a package.json and an installed snapshot. *)
Definition mainView (mainPackage : PackageJson Obj) (mainInstalled : InstalledMap)
    : CheckView :=
  mkCheckView None
    (default ∅ (pkg_engines mainPackage))
    (default ∅ (pkg_dependencies mainPackage))
    (copyOf (default ∅ (pkg_devDependencies mainPackage))
       ∪ copyOf (default ∅ (pkg_dependencies mainPackage)))
    (copyOf (default ∅ (pkg_optionalDependencies mainPackage)))
    mainInstalled.

(** The context of a workspace member. *)
Definition workspaceView (mainPackage : PackageJson Obj) (mainInstalled : InstalledMap)
    (subpath : string) (subPackage : PackageJson Obj) (subInstalled : InstalledMap)
    : CheckView :=
  mkCheckView (Some subpath)
    (from_option id (default ∅ (pkg_engines mainPackage)) (pkg_engines subPackage))
    (from_option id (default ∅ (pkg_dependencies mainPackage))
       (pkg_dependencies subPackage))
    (copyOf (default ∅ (pkg_devDependencies subPackage))
       ∪ copyOf (default ∅ (pkg_dependencies subPackage)))
    (copyOf (default ∅ (pkg_optionalDependencies subPackage)))
    (subInstalled ∪ mainInstalled).

(** ** The contexts of a run *)

Section context_definitions.

Variable disk : Disk.
Variable schedule : Schedule.

(** The two promises of a workspace member. *)
Definition fetchOf (path w : string) : Fetch :=
  let subpath := path +:+ "/" +:+ w in
  mkFetch subpath
    (catch (disk_readPackage disk subpath)
       (λ err, inl (ErrorWithCause "Failed to read workspace package.json" err)))
    (catch (disk_listInstalled disk subpath) (λ _, inr ∅)).

(** The reads that the members' fetches start. *)
Definition fetchEvents (path : string) (ws : list string) : list IOEvent :=
  w ← ws; [ReadPackage (path +:+ "/" +:+ w); ListInstalled (path +:+ "/" +:+ w)].

(** The contexts of the members whose fetches settle in the order of
    [fs], or the rejection of the first fetch that fails. *)
Fixpoint settledViews (main : PackageJson Obj) (mainInst : InstalledMap)
    (fs : list Fetch) : JsError + list CheckView :=
  match fs with
  | [] => inr []
  | f :: fs =>
    match Promise_all2 true (fetch_package f) (fetch_installed f) with
    | inl e => inl e
    | inr (sub, subInst) =>
      match settledViews main mainInst fs with
      | inl e => inl e
      | inr vs => inr (workspaceView main mainInst (fetch_subpath f) sub subInst :: vs)
      end
    end
  end.

(** The workspace members that are traversed, in the declared order. *)
Definition members (traverseWorkspaces : bool) (main : PackageJson Obj) : list string :=
  match (if traverseWorkspaces then pkg_workspaces main else None) with
  | Some workspaces => filter (λ w, w ≠ ".") workspaces
  | None => []
  end.

(** The traversed members in the order in which their fetches settle. *)
Definition settled (traverseWorkspaces : bool) (main : PackageJson Obj) : list string :=
  omap (λ i, members traverseWorkspaces main !! i) (member_order schedule).

(** The outcome of the two root reads. *)
Definition mainFetch (path : string) : Promise (PackageJson Obj * InstalledMap) :=
  Promise_all2 (root_manifest_first schedule)
    (catch (disk_readPackage disk path)
       (λ err, inl (ErrorWithCause "Failed to read package.json" err)))
    (catch (disk_listInstalled disk path)
       (λ err, inl (ErrorWithCause "Failed to list installed modules" err))).

(** The contexts of a run, or the error that aborts it. *)
Definition contextViews (path : string) (traverseWorkspaces : bool)
    : JsError + list CheckView :=
  match mainFetch path with
  | inl e => inl e
  | inr (main, mainInst) =>
    match settledViews main mainInst (fetchOf path <$> settled traverseWorkspaces main) with
    | inl e => inl e
    | inr vs => inr (mainView main mainInst :: vs)
    end
  end.

(** What a member's [listInstalled] contributes: its snapshot, or nothing
    when the read fails. *)
Definition installedOrEmpty (subpath : string) : InstalledMap :=
  match disk_listInstalled disk subpath with
  | inr m => m
  | inl _ => ∅
  end.

End context_definitions.

(** ** The lines of a run *)

Section line_definitions.

Variable checkPackageVersions : Obj → InstalledMap → Obj → EvaluatorResult.
Variable checkEngineVersions : Obj → Obj → InstalledMap → Obj → EvaluatorResult.

(** [o] after [delete o[name]] for every ignored name. *)
Definition withoutIgnored (engineIgnores : list string) (o : Obj) : Obj :=
  foldl (λ o name, delete name o) o engineIgnores.

(** The object that the dependencies of the engine check are copied from. *)
Definition engineSource (engineNoDev : bool) (check : Check) : loc :=
  if engineNoDev then dependencies check else requiredDependencies check.

(** The label depends on the subpath only. *)
Definition viewLabel (v : CheckView) (str : string) : string :=
  match view_subpath v with
  | Some s => if truthy s then "[" +:+ s +:+ "] " +:+ str else str
  | None => str
  end.

(** What the version evaluator returns for a context. *)
Definition versionResult (v : CheckView) : EvaluatorResult :=
  checkPackageVersions (view_requiredDependencies v) (view_installedDependencies v)
    (view_optionalDependencies v).

(** The dependencies that the engine evaluator is given for a context. *)
Definition engineView (engineNoDev : bool) (engineIgnores : list string)
    (v : CheckView) : Obj :=
  withoutIgnored engineIgnores
    (copyOf (if engineNoDev then view_dependencies v else view_requiredDependencies v)).

(** What the engine evaluator returns for a context. *)
Definition engineResult (engineNoDev : bool) (engineIgnores : list string)
    (v : CheckView) : EvaluatorResult :=
  checkEngineVersions (view_engines v) (engineView engineNoDev engineIgnores v)
    (view_installedDependencies v) (view_optionalDependencies v).

(** The labelled lines of one evaluator over all contexts, in the order of
    the contexts. *)
Definition block (lines : CheckView → list string) (vs : list CheckView)
    : list string :=
  v ← vs; viewLabel v <$> lines v.

(** The result of the two loops over contexts with the given contents. *)
Definition resultOf (engineCheck versionCheck engineNoDev : bool)
    (engineIgnores : list string) (vs : list CheckView) : InstalledCheckResult :=
  {| errors :=
       (if versionCheck then block (result_errors ∘ versionResult) vs else [])
       ++ (if engineCheck
           then block (result_errors ∘ engineResult engineNoDev engineIgnores) vs
           else []);
     warnings :=
       (if versionCheck then block (result_warnings ∘ versionResult) vs else [])
       ++ (if engineCheck
           then block (result_warnings ∘ engineResult engineNoDev engineIgnores) vs
           else []);
     notices := [] |}.

(** The order that C1 describes: context by context, and within a context
    the lines of the version check before those of the engine check. *)
Definition perContext (versionLines engineLines : CheckView → list string)
    (vs : list CheckView) : list string :=
  v ← vs; viewLabel v <$> (versionLines v ++ engineLines v).

End line_definitions.

Section outcome_definition.

Variable checkPackageVersions : Obj → InstalledMap → Obj → EvaluatorResult.
Variable checkEngineVersions : Obj → Obj → InstalledMap → Obj → EvaluatorResult.
Variable disk : Disk.
Variable schedule : Schedule.

(** The result of a run in which a check is enabled: the lines of the
    contexts that were built, or the error that aborted the run. *)
Definition outcome (options : InstalledCheckOptions) : JsError + InstalledCheckResult :=
  match contextViews disk schedule (default "." (opt_path options))
          (default true (opt_traverseWorkspaces options)) with
  | inl e => inl e
  | inr vs =>
    inr (resultOf checkPackageVersions checkEngineVersions
           (default false (opt_engineCheck options))
           (default false (opt_versionCheck options))
           (default false (opt_engineNoDev options))
           (default [] (opt_engineIgnores options)) vs)
  end.

End outcome_definition.

(** ** Sample runs *)

(** Sample evaluators, for runs on concrete disks.  The version evaluator
    reports a required name that is not installed, and one whose installed
    version is not the exact version that its range asks for; the engine
    evaluator reports every dependency it is given that is installed and
    declares engine requirements, as on a platform that satisfies none. *)
Definition sampleVersions (required : Obj) (installed : InstalledMap) (optional : Obj)
    : EvaluatorResult :=
  mkEvaluatorResult
    (omap (λ '(name, range),
             match installed !! name with
             | None => Some (name +:+ " is not installed")
             | Some pkg =>
               if decide (version pkg = range) then None
               else Some (name +:+ " installed version (" +:+ version pkg
                          +:+ ") does not satisfy (" +:+ range +:+ ")")
             end)
       (map_to_list required))
    [].

Definition sampleEngines (engines dependencies : Obj) (installed : InstalledMap)
    (optional : Obj) : EvaluatorResult :=
  mkEvaluatorResult
    (omap (λ name,
             match installed !! name with
             | Some (mkInstalledPackage _ (Some _)) => Some (name +:+ ": engine mismatch")
             | _ => None
             end)
       (map_to_list dependencies).*1)
    [].

(** The lines of the sample evaluators on the sample below. *)
Definition versionLine (name : string) : string :=
  name +:+ " installed version (2.0.0) does not satisfy (1.0.0)".
Definition engineLine (name : string) : string := name +:+ ": engine mismatch".

(** What is installed at the root of the sample. *)
Definition sampleInstalled : InstalledMap :=
  {[ "r" := mkInstalledPackage "2.0.0" (Some {["node" := ">=99.0.0"]});
     "x" := mkInstalledPackage "2.0.0" (Some {["node" := ">=99.0.0"]});
     "y" := mkInstalledPackage "2.0.0" (Some {["node" := ">=99.0.0"]}) ]}.

(** A root that depends on [r], with the members [a] and [b], which depend
    on [x] and on [y]; the three are installed at the root, in another
    version than the one asked for, and the members have no node_modules
    of their own. *)
Definition sampleDisk : Disk :=
  mkDisk
    (λ cwd,
       if decide (cwd = ".") then
         inr (mkPackageJson (Some {["r" := "1.0.0"]}) None None None (Some ["a"; "b"]))
       else if decide (cwd = "./a") then
         inr (mkPackageJson (Some {["x" := "1.0.0"]}) None None None None)
       else if decide (cwd = "./b") then
         inr (mkPackageJson (Some {["y" := "1.0.0"]}) None None None None)
       else inl (Error "ENOENT"))
    (λ path, if decide (path = ".") then inr sampleInstalled else inl (Error "ENOENT")).

(** The member fetches settle in the declared order, or [b]'s first. *)
Definition inOrder : Schedule := mkSchedule true [0; 1].
Definition reversed : Schedule := mkSchedule true [1; 0].

Definition noCheck : InstalledCheckOptions :=
  mkOptions None (Some false) None None (Some false) None.
Definition versionOnly : InstalledCheckOptions :=
  mkOptions None None None None (Some true) None.
Definition bothChecks : InstalledCheckOptions :=
  mkOptions None (Some true) None None (Some true) None.
Definition bothChecksIgnoringR : InstalledCheckOptions :=
  mkOptions None (Some true) (Some ["r"]) None (Some true) None.

(** The contexts of the sample, with the members settling in the declared
    order, and the store they are in. *)
Definition sampleStore : Heap :=
  (buildChecks sampleDisk inOrder "." true emptyHeap).1.
Definition sampleRoot : Check := mkCheck None 5 0 1 3 0.
Definition sampleA : Check := mkCheck (Some "./a") 7 6 8 10 2.
Definition sampleB : Check := mkCheck (Some "./b") 13 12 14 16 4.

(** The root manifest of the sample. *)
Definition sampleMain : PackageJson Obj :=
  mkPackageJson (Some {["r" := "1.0.0"]}) None None None (Some ["a"; "b"]).

(** The sample without the manifest of the member [a]. *)
Definition brokenDisk : Disk :=
  mkDisk
    (λ cwd, if decide (cwd = "./a") then inl (Error "ENOENT")
            else disk_readPackage sampleDisk cwd)
    (disk_listInstalled sampleDisk).

(** A root that declares [engines], with a member whose [engines] and
    [dependencies] are the empty mapping. *)
Definition emptyFieldsDisk : Disk :=
  mkDisk
    (λ cwd,
       if decide (cwd = ".") then
         inr (mkPackageJson (Some {["r" := "1"]}) None None
                (Some {["node" := ">=18.0.0"]}) (Some ["a"]))
       else if decide (cwd = "./a") then
         inr (mkPackageJson (Some ∅) None None (Some ∅) None)
       else inl (Error "ENOENT"))
    (λ path, if decide (path = ".") then inr ∅ else inl (Error "ENOENT")).

Definition emptyFieldsStore : Heap :=
  (buildChecks emptyFieldsDisk (mkSchedule true [0]) "." true emptyHeap).1.
Definition emptyFieldsRoot : Check := mkCheck None 1 0 2 4 0.
Definition emptyFieldsA : Check := mkCheck (Some "./a") 7 6 8 10 2.

(** A root and a member [a] that each list one name in both
    [dependencies] and [devDependencies]; [p] and [q] are installed at the
    root, and [a] has its own [p]. *)
Definition overlayDisk : Disk :=
  mkDisk
    (λ cwd,
       if decide (cwd = ".") then
         inr (mkPackageJson (Some {["p" := "^1.0.0"]}) (Some {["p" := "^2.0.0"]})
                None None (Some ["a"]))
       else if decide (cwd = "./a") then
         inr (mkPackageJson (Some {["q" := "^1.0.0"]}) (Some {["q" := "^2.0.0"]})
                None None None)
       else inl (Error "ENOENT"))
    (λ path,
       if decide (path = ".") then
         inr {["p" := mkInstalledPackage "1.0.0" None;
               "q" := mkInstalledPackage "1.0.0" None]}
       else if decide (path = "./a") then
         inr {["p" := mkInstalledPackage "2.0.0" None]}
       else inl (Error "ENOENT")).

Definition overlayStore : Heap :=
  (buildChecks overlayDisk (mkSchedule true [0]) "." true emptyHeap).1.
Definition overlayRoot : Check := mkCheck None 5 0 2 3 0.
Definition overlayA : Check := mkCheck (Some "./a") 8 6 9 10 2.

(** A package without workspaces whose [dependencies] and
    [devDependencies] both list [p] and the name [__proto__], with a dev
    dependency [d], an optional dependency [o] and an [engines] field. *)
Definition protoMain : PackageJson Obj :=
  mkPackageJson
    (Some {["p" := "^1.0.0"; "__proto__" := "^1.0.0"]})
    (Some {["p" := "^2.0.0"; "d" := "^1.0.0"; "__proto__" := "^2.0.0"]})
    (Some {["o" := "^1.0.0"]})
    (Some {["node" := ">=18.0.0"]})
    None.

Definition protoDisk : Disk :=
  mkDisk
    (λ cwd, if decide (cwd = ".") then inr protoMain else inl (Error "ENOENT"))
    (λ path, if decide (path = ".") then inr sampleInstalled else inl (Error "ENOENT")).

Definition protoStore : Heap :=
  (buildChecks protoDisk (mkSchedule true []) "." true emptyHeap).1.
Definition protoRoot : Check := mkCheck None 3 0 4 5 0.

(** ** Definitions for the further properties *)

(** A computation that returns normally and starts no read. *)
Definition quiet {A} (m : M A) : Prop :=
  ∀ σ, ∃ σ' x, m σ = (σ', inr x) ∧ io σ' = io σ.

(** A computation that starts no read, whether it returns or throws. *)
Definition readless {A} (m : M A) : Prop :=
  ∀ σ, io (m σ).1 = io σ.

(** The reads of a run in which a check is enabled: the two root reads
    and, when both succeed, the two reads of every traversed member, in
    the declared order. *)
Definition readsOf (disk : Disk) (path : string) (traverseWorkspaces : bool)
    : list IOEvent :=
  ReadPackage path :: ListInstalled path ::
  match disk_readPackage disk path, disk_listInstalled disk path with
  | inr main, inr _ => fetchEvents path (members traverseWorkspaces main)
  | _, _ => []
  end.

(** A disk without a root manifest, and one on which nothing can be read. *)
Definition noManifestDisk : Disk :=
  mkDisk (λ _, inl (Error "ENOENT")) (λ _, inr sampleInstalled).
Definition unreadableDisk : Disk :=
  mkDisk (λ _, inl (Error "ENOENT")) (λ _, inl (Error "EACCES")).

(** The context of the member [w], as far as the disk determines it: the
    manifest and the snapshot at [<path>/w] over the root's. *)
Definition memberView (disk : Disk) (main : PackageJson Obj) (mainInst : InstalledMap)
    (path w : string) : CheckView :=
  workspaceView main mainInst (path +:+ "/" +:+ w)
    match disk_readPackage disk (path +:+ "/" +:+ w) with
    | inr sub => sub
    | inl _ => mkPackageJson None None None None None
    end
    (installedOrEmpty disk (path +:+ "/" +:+ w)).

(** The sample without the manifests of its two members, which fail with
    different errors. *)
Definition twoBrokenDisk : Disk :=
  mkDisk
    (λ cwd, if decide (cwd = "./a") then inl (Error "ENOENT")
            else if decide (cwd = "./b") then inl (Error "EACCES")
            else disk_readPackage sampleDisk cwd)
    (disk_listInstalled sampleDisk).

(** The sample with the workspaces [.], [a] and [a] again. *)
Definition dotDisk : Disk :=
  mkDisk
    (λ cwd,
       if decide (cwd = ".") then
         inr (mkPackageJson (Some {["r" := "1.0.0"]}) None None None
                (Some ["."; "a"; "a"]))
       else disk_readPackage sampleDisk cwd)
    (disk_listInstalled sampleDisk).

Definition dotMain : PackageJson Obj :=
  mkPackageJson (Some {["r" := "1.0.0"]}) None None None (Some ["."; "a"; "a"]).

Definition dotStore : Heap :=
  (buildChecks dotDisk inOrder "." true emptyHeap).1.

(** A root that depends on [r], with a member [a] whose manifest declares
    nothing. *)
Definition bareMemberDisk : Disk :=
  mkDisk
    (λ cwd,
       if decide (cwd = ".") then
         inr (mkPackageJson (Some {["r" := "1.0.0"]}) None None None (Some ["a"]))
       else if decide (cwd = "./a") then
         inr (mkPackageJson None None None None None)
       else inl (Error "ENOENT"))
    (disk_listInstalled sampleDisk).

Definition bareMemberStore : Heap :=
  (buildChecks bareMemberDisk (mkSchedule true [0]) "." true emptyHeap).1.

(** Both checks on the root alone. *)
Definition noTraversal : InstalledCheckOptions :=
  mkOptions None (Some true) None None (Some true) (Some false).

(** The contexts of [dotDisk] and of [bareMemberDisk] other than the
    sample's. *)
Definition dotSecondA : Check := mkCheck (Some "./a") 13 12 14 16 4.
Definition bareA : Check := mkCheck (Some "./a") 6 0 7 10 2.

(** * Reasoning about the store *)

#[export] Instance extends_preorder : PreOrder extends.
Proof.
  split.
  - intros σ. by repeat split.
  - intros σ1 σ2 σ3 (H1 & H2 & H3) (K1 & K2 & K3).
    repeat split; by etrans.
Qed.

Lemma extends_validObject σ σ' l :
  extends σ σ' → validObject σ l → validObject σ' l.
Proof.
  intros (H & _ & _) Hl. unfold validObject in *.
  apply prefix_length in H. lia.
Qed.

Lemma extends_validMap σ σ' l :
  extends σ σ' → validMap σ l → validMap σ' l.
Proof.
  intros (_ & H & _) Hl. unfold validMap in *.
  apply prefix_length in H. lia.
Qed.

Lemma extends_objectAt σ σ' l :
  extends σ σ' → validObject σ l → objectAt σ' l = objectAt σ l.
Proof.
  intros (H & _ & _) Hl. unfold objectAt.
  destruct (lookup_lt_is_Some_2 (objects σ) l Hl) as [o Ho].
  by rewrite Ho, (prefix_lookup_Some _ _ _ _ Ho H).
Qed.

Lemma extends_mapAt σ σ' l :
  extends σ σ' → validMap σ l → mapAt σ' l = mapAt σ l.
Proof.
  intros (_ & H & _) Hl. unfold mapAt.
  destruct (lookup_lt_is_Some_2 (maps σ) l Hl) as [o Ho].
  by rewrite Ho, (prefix_lookup_Some _ _ _ _ Ho H).
Qed.

Lemma extends_objects_app σ k :
  extends σ (mkHeap (objects σ ++ k) (maps σ) (io σ)).
Proof. repeat split; simpl; [by apply prefix_app_r | done | done]. Qed.

Lemma extends_maps_app σ k :
  extends σ (mkHeap (objects σ) (maps σ ++ k) (io σ)).
Proof. repeat split; simpl; [done | by apply prefix_app_r | done]. Qed.

Lemma extends_io_app σ k :
  extends σ (mkHeap (objects σ) (maps σ) (io σ ++ k)).
Proof. repeat split; simpl; [done | done | by apply prefix_app_r]. Qed.

Lemma extends_validField σ σ' f :
  extends σ σ' → validField σ f → validField σ' f.
Proof. intros H Hf l ->. eapply extends_validObject; eauto. Qed.

Lemma extends_fieldAt σ σ' f :
  extends σ σ' → validField σ f → fieldAt σ' f = fieldAt σ f.
Proof.
  intros H Hf. destruct f as [l|]; [|done]. simpl.
  apply extends_objectAt; auto.
Qed.

(** ** Promises *)

(** The second promise of a member's pair has a handler that never
    rejects: which of the two settles first makes no difference. *)
Lemma Promise_all2_catch_right {A B} (first : bool) (p : Promise A) (q : Promise B)
    (fallback : B) :
  Promise_all2 first p (catch q (λ _, inr fallback))
  = Promise_all2 true p (catch q (λ _, inr fallback)).
Proof. by destruct p, q. Qed.

(** ** The monad *)

Lemma bind_inr {A B} (m : M A) (f : A → M B) σ σ' x :
  m σ = (σ', inr x) → (m ≫= f) σ = f x σ'.
Proof. intros H. unfold mbind, M_bind. by rewrite H. Qed.

Lemma bind_inl {A B} (m : M A) (f : A → M B) σ σ' e :
  m σ = (σ', inl e) → (m ≫= f) σ = (σ', inl e).
Proof. intros H. unfold mbind, M_bind. by rewrite H. Qed.

Lemma mapM_cons {A B} (f : A → M B) x l :
  mapM f (x :: l) = (y ← f x; k ← mapM f l; mret (y :: k)).
Proof. reflexivity. Qed.

(** ** [Object.assign] *)

Lemma objectAt_insert_eq σ l o :
  validObject σ l →
  objectAt (mkHeap (<[l := o]> (objects σ)) (maps σ) (io σ)) l = o.
Proof. intros H. unfold objectAt; simpl. by rewrite list_lookup_insert_eq. Qed.

Lemma objectAt_insert_ne σ l l' o :
  l ≠ l' →
  objectAt (mkHeap (<[l := o]> (objects σ)) (maps σ) (io σ)) l' = objectAt σ l'.
Proof. intros H. unfold objectAt; simpl. by rewrite list_lookup_insert_ne. Qed.

Lemma insert_objectAt σ l :
  validObject σ l → <[l := objectAt σ l]> (objects σ) = objects σ.
Proof.
  intros H. unfold objectAt.
  destruct (lookup_lt_is_Some_2 (objects σ) l H) as [o Ho].
  rewrite Ho. by apply list_insert_id.
Qed.

Lemma setProperty_run l key value σ :
  validObject σ l →
  setProperty l key value σ
  = (mkHeap (<[l := stored (objectAt σ l) key value]> (objects σ)) (maps σ) (io σ),
     inr ()).
Proof.
  intros Hv. unfold setProperty, stored.
  erewrite bind_inr; [|reflexivity].
  case_decide; [|done].
  rewrite insert_objectAt by done. by destruct σ.
Qed.

Lemma setProperty_loop target (l : list (string * string)) σ :
  validObject σ target →
  foldM (λ (_ : unit) kv, setProperty target kv.1 kv.2) () l σ
  = (mkHeap (<[target := foldl (λ t kv, stored t kv.1 kv.2) (objectAt σ target) l]>
               (objects σ)) (maps σ) (io σ), inr ()).
Proof.
  revert σ. induction l as [|[k v] l IH]; intros σ Hv; simpl.
  - rewrite insert_objectAt by done. by destruct σ.
  - erewrite bind_inr; [|by apply setProperty_run]. simpl.
    rewrite IH by (unfold validObject in *; simpl; by rewrite length_insert).
    simpl. by rewrite list_insert_insert_eq, objectAt_insert_eq.
Qed.

(** Whether [__proto__] is an own property of the target does not change
    while the properties of a source are assigned to it. *)
Lemma stored_proto (t : Obj) key value :
  stored t key value !! "__proto__" = None ↔ t !! "__proto__" = None.
Proof.
  unfold stored. case_decide as H; [done|].
  destruct (decide (key = "__proto__")) as [->|Hne].
  - rewrite lookup_insert_eq. split; [done|]. intros Ht. destruct H. by split.
  - by rewrite lookup_insert_ne.
Qed.

Lemma assignable_stored (t s : Obj) key value :
  assignable (stored t key value) s = assignable t s.
Proof.
  unfold assignable.
  destruct (decide (t !! "__proto__" = None)) as [Ht|Ht].
  - by rewrite decide_True by (by apply stored_proto).
  - rewrite decide_False; [done|]. by rewrite stored_proto.
Qed.

(** Assigning the properties one by one gives [assignable], laid over the
    target. *)
Lemma foldl_stored (l : list (string * string)) (t : Obj) :
  NoDup l.*1 →
  foldl (λ t kv, stored t kv.1 kv.2) t l = assignable t (list_to_map l) ∪ t.
Proof.
  revert t. induction l as [|[k v] l IH]; intros t Hnd; simpl.
  - unfold assignable. case_decide; [rewrite delete_empty|];
      by rewrite (left_id_L ∅ (∪)).
  - apply NoDup_cons in Hnd as [Hk Hnd]. rewrite IH by done.
    rewrite assignable_stored.
    assert (Hl : (list_to_map l : Obj) !! k = None)
      by (by apply not_elem_of_list_to_map_1).
    unfold assignable, stored.
    destruct (decide (t !! "__proto__" = None)) as [Ht|Ht].
    + destruct (decide (k = "__proto__")) as [->|Hne].
      * rewrite decide_True by done. by rewrite delete_insert_eq.
      * rewrite decide_False by (by intros [? _]).
        rewrite delete_insert_ne by done.
        rewrite <- insert_union_l. rewrite <- insert_union_r; [done|].
        by rewrite lookup_delete_ne.
    + rewrite decide_False by (by intros [-> ?]).
      rewrite <- insert_union_l. by rewrite <- insert_union_r.
Qed.

Lemma Object_assign_loop target sources σ :
  validObject σ target → target ∉ sources →
  foldM (λ (_ : unit) source,
           s ← getObject source;
           foldM (λ (_ : unit) kv, setProperty target kv.1 kv.2) () (map_to_list s))
    () sources σ
  = (mkHeap (<[target := assigned (objectAt σ target) (objectAt σ <$> sources)]>
               (objects σ)) (maps σ) (io σ), inr ()).
Proof.
  revert σ. induction sources as [|s sources IH]; intros σ Hv Hn; simpl.
  - rewrite insert_objectAt by done. by destruct σ.
  - apply not_elem_of_cons in Hn as [Hne Hn].
    erewrite bind_inr.
    2:{ erewrite bind_inr; [|reflexivity]. by apply setProperty_loop. }
    rewrite foldl_stored by apply NoDup_fst_map_to_list.
    rewrite list_to_map_to_list.
    rewrite IH; [|by unfold validObject in *; simpl; rewrite length_insert|done].
    simpl. rewrite list_insert_insert_eq, objectAt_insert_eq by done.
    do 3 f_equal. fold (fmap (M:=list) (objectAt σ) sources). f_equal.
    apply list_fmap_ext. intros i x Hx.
    apply objectAt_insert_ne. intros ->. apply Hn. by eapply list_elem_of_lookup_2.
Qed.

Lemma Object_assign_run target sources σ :
  validObject σ target → target ∉ sources →
  Object_assign target sources σ =
    (mkHeap (<[target := assigned (objectAt σ target) (objectAt σ <$> sources)]>
               (objects σ)) (maps σ) (io σ),
     inr target).
Proof.
  intros Hv Hn. unfold Object_assign.
  erewrite bind_inr; [|by apply Object_assign_loop]. done.
Qed.

(** ** [x || {}] and [Object.assign({}, ...)] *)

Lemma mapM_orEmpty_run fields τ :
  ∃ k sources,
    mapM orEmpty fields τ
      = (mkHeap (objects τ ++ replicate k ∅) (maps τ) (io τ), inr sources) ∧
    Forall2 (λ f s, match f with
                    | Some l => s = l
                    | None => length (objects τ) ≤ s < length (objects τ) + k
                    end) fields sources.
Proof.
  revert τ. induction fields as [|f fields IH]; intros τ.
  - exists 0, []. split; [|constructor]. simpl. rewrite app_nil_r. by destruct τ.
  - destruct f as [l|].
    + destruct (IH τ) as (k & sources & Hrun & Hall).
      exists k, (l :: sources). split; [|by constructor].
      rewrite mapM_cons. erewrite bind_inr; [|reflexivity].
      erewrite bind_inr; [|exact Hrun]. done.
    + destruct (IH (mkHeap (objects τ ++ [∅]) (maps τ) (io τ)))
        as (k & sources & Hrun & Hall).
      exists (S k), (length (objects τ) :: sources). split.
      * rewrite mapM_cons. erewrite bind_inr; [|reflexivity].
        erewrite bind_inr; [|exact Hrun].
        cbn. by rewrite <- app_assoc.
      * constructor; [lia|].
        eapply Forall2_impl; [exact Hall|]. intros [l|] s; simpl; [done|].
        rewrite length_app. simpl. lia.
Qed.

Lemma assignDefaults_run fields σ :
  Forall (validField σ) fields →
  ∃ extra,
    assignDefaults fields σ
      = (mkHeap (objects σ ++ assigned ∅ (fieldAt σ <$> fields) :: extra)
                (maps σ) (io σ),
         inr (length (objects σ))).
Proof.
  intros Hvalid. unfold assignDefaults.
  set (n := length (objects σ)).
  destruct (mapM_orEmpty_run fields (mkHeap (objects σ ++ [∅]) (maps σ) (io σ)))
    as (k & sources & Hrun & Hall).
  simpl in Hrun, Hall. rewrite length_app in Hall. simpl in Hall. fold n in Hall.
  exists (replicate k ∅).
  erewrite bind_inr; [|reflexivity].
  erewrite bind_inr; [|exact Hrun].
  rewrite Object_assign_run.
  - simpl. do 2 f_equal.
    rewrite <- app_assoc. simpl.
    rewrite insert_app_r_alt by (fold n; lia). fold n. rewrite Nat.sub_diag. simpl.
    do 2 f_equal. unfold assigned. f_equal.
    + unfold objectAt. simpl. by rewrite list_lookup_middle.
    + clear Hrun. induction Hall as [|f s fields sources Hfs Hall IH]; [done|].
      apply Forall_cons in Hvalid as [Hf Hvalid]. cbn. f_equal; [|by apply IH].
      unfold objectAt. simpl.
      destruct f as [l|]; simpl.
      * subst s. specialize (Hf l eq_refl). unfold validObject in Hf.
        by rewrite lookup_app_l.
      * rewrite lookup_app_r by (fold n; lia). fold n.
        destruct (s - n) as [|j] eqn:Hj; [lia|]. simpl.
        rewrite lookup_replicate_2 by lia. done.
  - unfold validObject. simpl. rewrite !length_app. simpl. fold n. lia.
  - intros Hin. clear Hrun.
    induction Hall as [|f s fields sources Hfs Hall IH]; [by apply elem_of_nil in Hin|].
    apply Forall_cons in Hvalid as [Hf Hvalid].
    apply elem_of_cons in Hin as [Heq|Hin]; [|by apply IH].
    destruct f as [l|]; [|lia].
    specialize (Hf l eq_refl). unfold validObject in Hf. unfold n in Heq. lia.
Qed.

(** What [assignDefaults] guarantees, without the shape of the store. *)
Lemma assignDefaults_spec fields σ :
  Forall (validField σ) fields →
  ∃ σ' l,
    assignDefaults fields σ = (σ', inr l) ∧
    extends σ σ' ∧
    validObject σ' l ∧ ¬ validObject σ l ∧
    objectAt σ' l = assigned ∅ (fieldAt σ <$> fields).
Proof.
  intros Hvalid. destruct (assignDefaults_run fields σ Hvalid) as [extra Hrun].
  eexists _, _. split; [exact Hrun|]. split; [apply extends_objects_app|].
  unfold validObject, objectAt. simpl. rewrite length_app. simpl.
  split; [lia|]. split; [lia|]. by rewrite list_lookup_middle.
Qed.

Lemma orEmpty_spec f σ :
  validField σ f →
  ∃ σ' l,
    orEmpty f σ = (σ', inr l) ∧
    extends σ σ' ∧
    validObject σ' l ∧
    objectAt σ' l = fieldAt σ f.
Proof.
  intros Hf. destruct f as [l|]; simpl.
  - exists σ, l. repeat split; try done. by apply Hf.
  - eexists _, _. split; [reflexivity|]. split; [apply (extends_objects_app σ [∅])|].
    unfold validObject, objectAt. simpl. rewrite length_app. simpl.
    split; [lia|]. by rewrite list_lookup_middle.
Qed.

Lemma orElseEmpty_spec f g σ :
  validField σ f → validField σ g →
  ∃ σ' l,
    orElseEmpty f g σ = (σ', inr l) ∧
    extends σ σ' ∧
    validObject σ' l ∧
    objectAt σ' l = from_option (objectAt σ) (fieldAt σ g) f.
Proof.
  intros Hf Hg. destruct f as [l|]; simpl.
  - exists σ, l. repeat split; try done. by apply Hf.
  - by apply orEmpty_spec.
Qed.

(** ** Maps *)

Lemma mapAt_insert_eq σ l m :
  validMap σ l →
  mapAt (mkHeap (objects σ) (<[l := m]> (maps σ)) (io σ)) l = m.
Proof. intros H. unfold mapAt; simpl. by rewrite list_lookup_insert_eq. Qed.

Lemma insert_mapAt σ l :
  validMap σ l → <[l := mapAt σ l]> (maps σ) = maps σ.
Proof.
  intros H. unfold mapAt.
  destruct (lookup_lt_is_Some_2 (maps σ) l H) as [o Ho].
  rewrite Ho. by apply list_insert_id.
Qed.

Lemma foldl_insert_union {V} (l : list (string * V)) (m : gmap string V) :
  NoDup l.*1 →
  foldl (λ m kv, <[kv.1 := kv.2]> m) m l = list_to_map l ∪ m.
Proof.
  revert m. induction l as [|[k v] l IH]; intros m Hnd; simpl.
  - by rewrite (left_id_L ∅ (∪)).
  - apply NoDup_cons in Hnd as [Hk Hnd]. rewrite IH by done.
    rewrite <- insert_union_l. rewrite <- insert_union_r; [done|].
    by apply not_elem_of_list_to_map_1.
Qed.

Lemma Map_set_loop target (l : list (string * InstalledPackage)) σ :
  validMap σ target →
  foldM (λ (_ : unit) kv, Map_set target kv.1 kv.2) () l σ
  = (mkHeap (objects σ)
            (<[target := foldl (λ m kv, <[kv.1 := kv.2]> m) (mapAt σ target) l]> (maps σ))
            (io σ), inr ()).
Proof.
  revert σ. induction l as [|[k v] l IH]; intros σ Hv; simpl.
  - rewrite insert_mapAt by done. by destruct σ.
  - erewrite bind_inr; [|reflexivity]. simpl.
    rewrite IH by (unfold validMap in *; simpl; by rewrite length_insert).
    simpl. by rewrite list_insert_insert_eq, mapAt_insert_eq.
Qed.

(** Lines 82-83: [new Map(main)] followed by the [forEach] that sets the
    member's entries: the member's entries laid over the root's, in a new
    Map. *)
Lemma overlay_run {A} main sub (k : loc → M A) σ :
  validMap σ main → validMap σ sub →
  (installedDependencies ← Map_copy main;
   _ ← Map_forEach sub (λ value key, Map_set installedDependencies key value);
   k installedDependencies) σ
  = k (length (maps σ))
      (mkHeap (objects σ) (maps σ ++ [mapAt σ sub ∪ mapAt σ main]) (io σ)).
Proof.
  intros Hmain Hsub.
  erewrite bind_inr; [|reflexivity]. simpl.
  erewrite bind_inr.
  2:{ unfold Map_forEach. erewrite bind_inr; [|reflexivity].
      apply (Map_set_loop (length (maps σ))).
      unfold validMap. simpl. rewrite length_app. simpl. lia. }
  simpl. do 2 f_equal.
  unfold validMap in *.
  rewrite insert_app_r_alt, Nat.sub_diag by lia. simpl. do 2 f_equal.
  assert (Hsub' : mapAt (mkHeap (objects σ) (maps σ ++ [mapAt σ main]) (io σ)) sub
                  = mapAt σ sub).
  { unfold mapAt. simpl. by rewrite lookup_app_l. }
  assert (Hnew : mapAt (mkHeap (objects σ) (maps σ ++ [mapAt σ main]) (io σ))
                   (length (maps σ)) = mapAt σ main).
  { unfold mapAt at 1. simpl. by rewrite list_lookup_middle. }
  rewrite Hsub', Hnew.
  rewrite foldl_insert_union by apply NoDup_fst_map_to_list.
  by rewrite list_to_map_to_list.
Qed.

(** ** A package.json enters the store *)

Lemma extends_validPackage σ σ' p :
  extends σ σ' → validPackage σ p → validPackage σ' p.
Proof.
  intros H (H1 & H2 & H3 & H4).
  repeat split; eapply extends_validField; eauto.
Qed.

Lemma extends_fmap_objectAt σ σ' f :
  extends σ σ' → validField σ f → objectAt σ' <$> f = objectAt σ <$> f.
Proof.
  intros H Hf. destruct f as [l|]; [|done]. simpl. f_equal.
  apply extends_objectAt; auto.
Qed.

Lemma extends_packageAt σ σ' p :
  extends σ σ' → validPackage σ p → packageAt σ' p = packageAt σ p.
Proof.
  intros H (H1 & H2 & H3 & H4). unfold packageAt.
  by rewrite !(extends_fmap_objectAt σ σ').
Qed.

Lemma allocField_spec f σ :
  ∃ σ' f',
    allocField f σ = (σ', inr f') ∧
    extends σ σ' ∧ maps σ' = maps σ ∧
    validField σ' f' ∧
    objectAt σ' <$> f' = f.
Proof.
  destruct f as [o|]; simpl.
  - eexists _, _. split; [reflexivity|]. split; [apply (extends_objects_app σ [o])|].
    split; [done|]. split.
    + intros l [= <-]. unfold validObject. simpl. rewrite length_app. simpl. lia.
    + simpl. unfold objectAt. simpl. by rewrite list_lookup_middle.
  - exists σ, None. by repeat split.
Qed.

Lemma allocPackage_spec p σ :
  ∃ σ' p',
    allocPackage p σ = (σ', inr p') ∧
    extends σ σ' ∧ maps σ' = maps σ ∧
    validPackage σ' p' ∧
    packageAt σ' p' = p.
Proof.
  unfold allocPackage.
  destruct (allocField_spec (pkg_dependencies p) σ) as (σ1 & d & R1 & E1 & M1 & V1 & C1).
  destruct (allocField_spec (pkg_devDependencies p) σ1) as (σ2 & dd & R2 & E2 & M2 & V2 & C2).
  destruct (allocField_spec (pkg_optionalDependencies p) σ2)
    as (σ3 & od & R3 & E3 & M3 & V3 & C3).
  destruct (allocField_spec (pkg_engines p) σ3) as (σ4 & e & R4 & E4 & M4 & V4 & C4).
  exists σ4, (mkPackageJson d dd od e (pkg_workspaces p)).
  split.
  { erewrite bind_inr; [|exact R1]. erewrite bind_inr; [|exact R2].
    erewrite bind_inr; [|exact R3]. erewrite bind_inr; [|exact R4]. done. }
  split; [by do 3 (etrans; [eassumption|])|].
  split; [congruence|].
  assert (E24 : extends σ2 σ4) by (by etrans).
  assert (E14 : extends σ1 σ4) by (by etrans).
  split.
  { repeat split; simpl; eauto using extends_validField. }
  unfold packageAt. simpl.
  rewrite (extends_fmap_objectAt σ1 σ4 d), (extends_fmap_objectAt σ2 σ4 dd),
    (extends_fmap_objectAt σ3 σ4 od) by done.
  rewrite C1, C2, C3, C4. by destruct p.
Qed.

(** ** Check contexts *)

Lemma extends_validCheck σ σ' c :
  extends σ σ' → validCheck σ c → validCheck σ' c.
Proof.
  intros H (H1 & H2 & H3 & H4 & H5).
  repeat split; eauto using extends_validObject, extends_validMap.
Qed.

Lemma extends_viewCheck σ σ' c :
  extends σ σ' → validCheck σ c → viewCheck σ' c = viewCheck σ c.
Proof.
  intros H (H1 & H2 & H3 & H4 & H5). unfold viewCheck.
  by rewrite !(extends_objectAt σ σ'), (extends_mapAt σ σ').
Qed.

Lemma fieldAt_default σ f : fieldAt σ f = default ∅ (objectAt σ <$> f).
Proof. by destruct f. Qed.

Lemma assigned_one (a : Obj) : assigned ∅ [a] = copyOf a.
Proof. unfold assigned, assignable. simpl. by rewrite (right_id_L ∅ (∪)). Qed.

Lemma assigned_two (a b : Obj) : assigned ∅ [a; b] = copyOf b ∪ copyOf a.
Proof.
  unfold assigned, assignable, copyOf. simpl. rewrite (right_id_L ∅ (∪)).
  by rewrite decide_True by apply lookup_delete_eq.
Qed.

Lemma copyOf_union (a b : Obj) : copyOf a ∪ copyOf b = copyOf (a ∪ b).
Proof. unfold copyOf. by rewrite delete_union. Qed.

Lemma copyOf_idemp (a : Obj) : copyOf (copyOf a) = copyOf a.
Proof. unfold copyOf. apply delete_id, lookup_delete_eq. Qed.

Lemma lookup_copyOf (a : Obj) name :
  copyOf a !! name = if decide (name = "__proto__") then None else a !! name.
Proof.
  unfold copyOf. case_decide as H; [subst; apply lookup_delete_eq|].
  by rewrite lookup_delete_ne.
Qed.

Lemma mainCheck_spec p inst σ :
  validPackage σ p → validMap σ inst →
  ∃ σ' c,
    mainCheck p inst σ = (σ', inr c) ∧
    extends σ σ' ∧
    validCheck σ' c ∧
    viewCheck σ' c = mainView (packageAt σ p) (mapAt σ inst).
Proof.
  intros (Vd & Vdd & Vod & Ve) Vi. unfold mainCheck.
  destruct (assignDefaults_spec [pkg_dependencies p; pkg_devDependencies p] σ)
    as (σ1 & req & R1 & E1 & V1 & _ & C1); [by repeat constructor|].
  destruct (assignDefaults_spec [pkg_optionalDependencies p] σ1)
    as (σ2 & opt & R2 & E2 & V2 & _ & C2).
  { repeat constructor. eauto using extends_validField. }
  destruct (orEmpty_spec (pkg_engines p) σ2) as (σ3 & eng & R3 & E3 & V3 & C3).
  { eapply extends_validField; [|exact Ve]. by etrans. }
  destruct (orEmpty_spec (pkg_dependencies p) σ3) as (σ4 & dep & R4 & E4 & V4 & C4).
  { eapply extends_validField; [|exact Vd]. by do 2 (etrans; [eassumption|]). }
  assert (E02 : extends σ σ2) by (by etrans).
  assert (E03 : extends σ σ3) by (by etrans).
  assert (E04 : extends σ σ4) by (by etrans).
  assert (E14 : extends σ1 σ4) by (by do 2 (etrans; [eassumption|])).
  assert (E24 : extends σ2 σ4) by (by etrans).
  eexists σ4, _. split.
  { erewrite bind_inr; [|exact R1]. erewrite bind_inr; [|exact R2].
    erewrite bind_inr; [|exact R3]. erewrite bind_inr; [|exact R4]. reflexivity. }
  split; [done|]. split.
  { repeat split; simpl; eauto using extends_validObject, extends_validMap. }
  unfold viewCheck, mainView, packageAt. simpl.
  rewrite (extends_objectAt σ3 σ4 eng), C3 by done.
  rewrite C4.
  rewrite (extends_objectAt σ1 σ4 req), C1 by done.
  rewrite (extends_objectAt σ2 σ4 opt), C2 by done.
  rewrite (extends_mapAt σ σ4) by done.
  cbn [fmap list_fmap]. rewrite assigned_one, assigned_two.
  rewrite (extends_fieldAt σ σ2), (extends_fieldAt σ σ3), (extends_fieldAt σ σ1) by done.
  by rewrite !fieldAt_default.
Qed.

Lemma workspaceCheck_spec main mainInst sp sub subInst σ :
  validPackage σ main → validMap σ mainInst →
  validPackage σ sub → validMap σ subInst →
  ∃ σ' c,
    workspaceCheck main mainInst sp sub subInst σ = (σ', inr c) ∧
    extends σ σ' ∧
    validCheck σ' c ∧
    ¬ validMap σ (installedDependencies c) ∧
    viewCheck σ' c
      = workspaceView (packageAt σ main) (mapAt σ mainInst) sp
          (packageAt σ sub) (mapAt σ subInst).
Proof.
  intros (Md & Mdd & Mod & Me) Vmi (Vd & Vdd & Vod & Ve) Vi. unfold workspaceCheck.
  rewrite overlay_run by done.
  set (σ0 := mkHeap (objects σ) (maps σ ++ [mapAt σ subInst ∪ mapAt σ mainInst])
               (io σ)).
  assert (E0 : extends σ σ0) by apply extends_maps_app.
  destruct (orElseEmpty_spec (pkg_engines sub) (pkg_engines main) σ0)
    as (σ1 & eng & R1 & E1 & V1 & C1); [by eauto using extends_validField..|].
  assert (E01 : extends σ σ1) by (by etrans).
  destruct (orElseEmpty_spec (pkg_dependencies sub) (pkg_dependencies main) σ1)
    as (σ2 & dep & R2 & E2 & V2 & C2); [by eauto using extends_validField..|].
  assert (E02 : extends σ σ2) by (by etrans).
  destruct (assignDefaults_spec [pkg_dependencies sub; pkg_devDependencies sub] σ2)
    as (σ3 & req & R3 & E3 & V3 & _ & C3).
  { repeat constructor; eauto using extends_validField. }
  assert (E03 : extends σ σ3) by (by etrans).
  destruct (assignDefaults_spec [pkg_optionalDependencies sub] σ3)
    as (σ4 & opt & R4 & E4 & V4 & _ & C4).
  { repeat constructor; eauto using extends_validField. }
  assert (E04 : extends σ σ4) by (by etrans).
  assert (E14 : extends σ1 σ4) by (by do 2 (etrans; [eassumption|])).
  assert (E24 : extends σ2 σ4) by (by etrans).
  assert (E004 : extends σ0 σ4) by (by etrans).
  assert (Vnew : validMap σ0 (length (maps σ))).
  { unfold validMap, σ0. simpl. rewrite length_app. simpl. lia. }
  eexists σ4, _. split.
  { erewrite bind_inr; [|exact R1]. erewrite bind_inr; [|exact R2].
    erewrite bind_inr; [|exact R3]. erewrite bind_inr; [|exact R4]. reflexivity. }
  split; [done|]. split.
  { repeat split; simpl; eauto using extends_validObject, extends_validMap. }
  split; [simpl; unfold validMap; lia|].
  unfold viewCheck, workspaceView, packageAt. simpl.
  rewrite (extends_objectAt σ1 σ4 eng), C1 by done.
  rewrite (extends_objectAt σ2 σ4 dep), C2 by done.
  rewrite (extends_objectAt σ3 σ4 req), C3 by done.
  rewrite C4.
  rewrite (extends_mapAt σ0 σ4) by done.
  cbn [fmap list_fmap]. rewrite assigned_one, assigned_two.
  rewrite (extends_fieldAt σ σ0 (pkg_engines main)),
    (extends_fieldAt σ σ1 (pkg_dependencies main)),
    (extends_fieldAt σ σ2 (pkg_dependencies sub)),
    (extends_fieldAt σ σ2 (pkg_devDependencies sub)),
    (extends_fieldAt σ σ3 (pkg_optionalDependencies sub)) by done.
  rewrite !fieldAt_default.
  f_equal.
  - destruct (pkg_engines sub) as [l|]; simpl; [|done].
    apply extends_objectAt; [done|]. by apply Ve.
  - destruct (pkg_dependencies sub) as [l|]; simpl; [|done].
    apply extends_objectAt; [done|]. by apply Vd.
  - unfold mapAt at 1, σ0. simpl. by rewrite list_lookup_middle.
Qed.

(** ** The contexts that [buildChecks] builds *)

Section contexts.

Variable disk : Disk.
Variable schedule : Schedule.

Lemma mapM_fetchWorkspace_run path ws σ :
  mapM (fetchWorkspace disk path) ws σ
  = (mkHeap (objects σ) (maps σ) (io σ ++ fetchEvents path ws),
     inr (fetchOf disk path <$> ws)).
Proof.
  revert σ. induction ws as [|w ws IH]; intros σ.
  - unfold fetchEvents. simpl. rewrite app_nil_r. by destruct σ.
  - rewrite mapM_cons. erewrite bind_inr; [|reflexivity].
    erewrite bind_inr; [|apply IH]. simpl.
    unfold fetchEvents. cbn. by rewrite <- !app_assoc.
Qed.

Lemma settleWorkspace_spec main mainInst checks f σ :
  validPackage σ main → validMap σ mainInst →
  match Promise_all2 true (fetch_package f) (fetch_installed f) with
  | inl e => settleWorkspace main mainInst checks f σ = (σ, inl e)
  | inr (sub, subInst) =>
    ∃ σ' c,
      settleWorkspace main mainInst checks f σ = (σ', inr (checks ++ [c])) ∧
      extends σ σ' ∧
      validCheck σ' c ∧
      ¬ validMap σ (installedDependencies c) ∧
      viewCheck σ' c
        = workspaceView (packageAt σ main) (mapAt σ mainInst) (fetch_subpath f)
            sub subInst
  end.
Proof.
  intros Vm Vmi. unfold settleWorkspace.
  destruct (Promise_all2 true (fetch_package f) (fetch_installed f))
    as [e|[sub subInst]]; [done|].
  destruct (allocPackage_spec sub σ) as (σ1 & sub' & R1 & E1 & M1 & V1 & C1).
  set (σ2 := mkHeap (objects σ1) (maps σ1 ++ [subInst]) (io σ1)).
  assert (E12 : extends σ1 σ2) by apply extends_maps_app.
  assert (E02 : extends σ σ2) by (by etrans).
  assert (Vsi : validMap σ2 (length (maps σ1))).
  { unfold validMap, σ2. simpl. rewrite length_app. simpl. lia. }
  destruct (workspaceCheck_spec main mainInst (fetch_subpath f) sub'
              (length (maps σ1)) σ2) as (σ3 & c & R3 & E3 & V3 & F3 & C3);
    [by eauto using extends_validPackage, extends_validMap..|].
  exists σ3, c. split.
  { erewrite bind_inr; [|reflexivity]. cbv beta iota.
    erewrite bind_inr; [|exact R1].
    erewrite bind_inr; [|reflexivity].
    erewrite bind_inr; [|exact R3]. reflexivity. }
  split; [by etrans|]. split; [done|]. split.
  { intros Hv. apply F3. eapply extends_validMap; [exact E02|done]. }
  rewrite C3.
  rewrite (extends_packageAt σ σ2), (extends_mapAt σ σ2) by done.
  rewrite (extends_packageAt σ1 σ2), C1 by done.
  do 2 f_equal. unfold mapAt, σ2. simpl. by rewrite list_lookup_middle.
Qed.

Lemma foldM_settleWorkspace_spec main mainInst fs checks σ :
  validPackage σ main → validMap σ mainInst →
  Forall (validCheck σ) checks →
  ∃ σ',
    extends σ σ' ∧
    match settledViews (packageAt σ main) (mapAt σ mainInst) fs with
    | inl e => foldM (settleWorkspace main mainInst) checks fs σ = (σ', inl e)
    | inr vs =>
      ∃ cs,
        foldM (settleWorkspace main mainInst) checks fs σ = (σ', inr (checks ++ cs)) ∧
        Forall (validCheck σ') cs ∧
        Forall (λ c, ¬ validMap σ (installedDependencies c)) cs ∧
        viewCheck σ' <$> cs = vs
    end.
Proof.
  revert checks σ. induction fs as [|f fs IH]; intros checks σ Vm Vmi Vcs.
  - exists σ. split; [done|]. exists []. simpl. by rewrite app_nil_r.
  - simpl. pose proof (settleWorkspace_spec main mainInst checks f σ Vm Vmi) as Hf.
    destruct (Promise_all2 true (fetch_package f) (fetch_installed f))
      as [e|[sub subInst]].
    { exists σ. split; [done|]. by erewrite bind_inl. }
    destruct Hf as (σ1 & c & R1 & E1 & V1 & F1 & C1).
    destruct (IH (checks ++ [c]) σ1) as (σ2 & E2 & Hrest).
    { by eapply extends_validPackage. }
    { by eapply extends_validMap. }
    { apply Forall_app. split; [|by constructor].
      eapply Forall_impl; [exact Vcs|]. intros c'. by apply extends_validCheck. }
    rewrite (extends_packageAt σ σ1), (extends_mapAt σ σ1) in Hrest by done.
    exists σ2. split; [by etrans|].
    destruct (settledViews (packageAt σ main) (mapAt σ mainInst) fs) as [e|vs].
    { erewrite bind_inr; [|exact R1]. done. }
    destruct Hrest as (cs & R2 & V2 & F2 & C2).
    exists (c :: cs). split.
    { erewrite bind_inr; [|exact R1]. rewrite R2. by rewrite <- app_assoc. }
    split; [constructor; [by eapply extends_validCheck|done]|].
    split.
    { constructor; [done|]. eapply Forall_impl; [exact F2|].
      intros c' Hc' Hv. apply Hc'. by eapply extends_validMap. }
    cbn. rewrite C2. f_equal. rewrite <- C1. by apply extends_viewCheck.
Qed.

Lemma omap_lookup_fmap {A B} (f : A → B) (l : list A) (order : list nat) :
  omap (λ i, (f <$> l) !! i) order = f <$> omap (λ i, l !! i) order.
Proof.
  induction order as [|i order IH]; [done|]. cbn.
  rewrite list_lookup_fmap. destruct (l !! i); cbn; by rewrite IH.
Qed.

Lemma workspaceChecks_spec path traverse main mainInst checks σ :
  validPackage σ main → validMap σ mainInst →
  Forall (validCheck σ) checks →
  ∃ σ',
    extends σ σ' ∧
    match settledViews (packageAt σ main) (mapAt σ mainInst)
            (fetchOf disk path <$> settled schedule traverse (packageAt σ main)) with
    | inl e => workspaceChecks disk schedule path traverse main mainInst checks σ
                 = (σ', inl e)
    | inr vs =>
      ∃ cs,
        workspaceChecks disk schedule path traverse main mainInst checks σ
          = (σ', inr (checks ++ cs)) ∧
        Forall (validCheck σ') cs ∧
        Forall (λ c, ¬ validMap σ (installedDependencies c)) cs ∧
        viewCheck σ' <$> cs = vs
    end.
Proof.
  intros Vm Vmi Vcs. unfold workspaceChecks, settled, members.
  change (pkg_workspaces (packageAt σ main)) with (pkg_workspaces main).
  destruct (if traverse then pkg_workspaces main else None) as [ws|].
  - set (σ1 := mkHeap (objects σ) (maps σ)
                 (io σ ++ fetchEvents path (filter (λ w, w ≠ ".") ws))).
    assert (E1 : extends σ σ1) by apply extends_io_app.
    destruct (foldM_settleWorkspace_spec main mainInst
                (omap (λ i, (fetchOf disk path <$> filter (λ w, w ≠ ".") ws) !! i)
                   (member_order schedule)) checks σ1) as (σ2 & E2 & Hrun).
    { by eapply extends_validPackage. }
    { by eapply extends_validMap. }
    { eapply Forall_impl; [exact Vcs|]. intros c. by apply extends_validCheck. }
    exists σ2. split; [by etrans|].
    rewrite (extends_packageAt σ σ1), (extends_mapAt σ σ1) in Hrun by done.
    rewrite omap_lookup_fmap in Hrun.
    erewrite bind_inr; [|apply mapM_fetchWorkspace_run].
    fold σ1. rewrite omap_lookup_fmap.
    destruct (settledViews _ _ _) as [e|vs]; [done|].
    destruct Hrun as (cs & R & V & F & C). exists cs. repeat split; try done.
  - exists σ. split; [done|].
    replace (omap (λ i, @nil string !! i) (member_order schedule)) with (@nil string).
    2:{ induction (member_order schedule) as [|i order IH]; [done|]. cbn.
        by rewrite lookup_nil. }
    simpl. exists []. by rewrite app_nil_r.
Qed.

(** [buildChecks] builds the contexts that [contextViews] describes, or
    throws the error it describes.  The Map of a member's context is not
    the Map of the root context. *)
Theorem buildChecks_spec path traverse σ :
  ∃ σ',
    extends σ σ' ∧
    match contextViews disk schedule path traverse with
    | inl e => buildChecks disk schedule path traverse σ = (σ', inl e)
    | inr vs =>
      ∃ c cs,
        buildChecks disk schedule path traverse σ = (σ', inr (c :: cs)) ∧
        Forall (validCheck σ') (c :: cs) ∧
        viewCheck σ' <$> (c :: cs) = vs ∧
        Forall (λ c', installedDependencies c' ≠ installedDependencies c) cs
    end.
Proof.
  unfold buildChecks, contextViews, mainFetch.
  set (σ1 := mkHeap (objects σ) (maps σ) (io σ ++ [ReadPackage path])).
  set (σ2 := mkHeap (objects σ1) (maps σ1) (io σ1 ++ [ListInstalled path])).
  assert (E02 : extends σ σ2).
  { etrans; [apply (extends_io_app σ [ReadPackage path])|].
    apply (extends_io_app σ1). }
  erewrite bind_inr; [|reflexivity]. erewrite bind_inr; [|reflexivity]. fold σ1 σ2.
  destruct (Promise_all2 _ _ _) as [e|[main mainInst]].
  { exists σ2. split; [done|]. by erewrite bind_inl. }
  erewrite bind_inr; [|reflexivity]. cbv beta iota.
  destruct (allocPackage_spec main σ2) as (σ3 & main' & R3 & E3 & M3 & V3 & C3).
  set (σ4 := mkHeap (objects σ3) (maps σ3 ++ [mainInst]) (io σ3)).
  assert (E34 : extends σ3 σ4) by apply extends_maps_app.
  assert (Vmi : validMap σ4 (length (maps σ3))).
  { unfold validMap, σ4. simpl. rewrite length_app. simpl. lia. }
  assert (Cmi : mapAt σ4 (length (maps σ3)) = mainInst).
  { unfold mapAt, σ4. simpl. by rewrite list_lookup_middle. }
  destruct (mainCheck_spec main' (length (maps σ3)) σ4)
    as (σ5 & c & R5 & E5 & V5 & C5); [by eapply extends_validPackage|done|].
  rewrite (extends_packageAt σ3 σ4), C3, Cmi in C5 by done.
  destruct (workspaceChecks_spec path traverse main' (length (maps σ3)) [c] σ5)
    as (σ6 & E6 & Hrun).
  { eapply extends_validPackage; [|exact V3]. by etrans. }
  { by eapply extends_validMap. }
  { by constructor. }
  assert (E35 : extends σ3 σ5) by (by etrans).
  rewrite (extends_packageAt σ3 σ5), C3 in Hrun by done.
  rewrite (extends_mapAt σ4 σ5), Cmi in Hrun by done.
  exists σ6. split; [by do 4 (etrans; [eassumption|])|].
  erewrite bind_inr; [|exact R3].
  erewrite bind_inr; [|reflexivity]. fold σ4.
  erewrite bind_inr; [|exact R5].
  destruct (settledViews _ _ _) as [e|vs]; [done|].
  destruct Hrun as (cs & R6 & V6 & F6 & C6).
  exists c, cs. split; [done|]. split.
  { constructor; [by eapply extends_validCheck|done]. }
  split.
  { cbn. rewrite C6. f_equal. rewrite <- C5. by apply extends_viewCheck. }
  eapply Forall_impl; [exact F6|]. intros c' Hc' Heq. apply Hc'.
  rewrite Heq. by destruct V5 as (_ & _ & _ & _ & ?).
Qed.

Lemma settledViews_inr main mainInst path ws vs :
  settledViews main mainInst (fetchOf disk path <$> ws) = inr vs →
  Forall2 (λ w v, ∃ sub,
      disk_readPackage disk (path +:+ "/" +:+ w) = inr sub ∧
      v = workspaceView main mainInst (path +:+ "/" +:+ w) sub
            (installedOrEmpty disk (path +:+ "/" +:+ w))) ws vs.
Proof.
  revert vs. induction ws as [|w ws IH]; intros vs; cbn.
  - intros [= <-]. constructor.
  - destruct (disk_readPackage disk (path +:+ "/" +:+ w)) as [e|sub] eqn:Hr; cbn;
      destruct (disk_listInstalled disk (path +:+ "/" +:+ w)) as [e'|subInst] eqn:Hi;
      cbn; try done;
      destruct (settledViews _ _ _) as [?|vs']; try done;
      intros [= <-]; (constructor; [|by apply IH]);
      exists sub; unfold installedOrEmpty; by rewrite Hi.
Qed.

Lemma settledViews_inl main mainInst path ws e :
  settledViews main mainInst (fetchOf disk path <$> ws) = inl e →
  ∃ w cause,
    w ∈ ws ∧
    disk_readPackage disk (path +:+ "/" +:+ w) = inl cause ∧
    e = ErrorWithCause "Failed to read workspace package.json" cause.
Proof.
  induction ws as [|w ws IH]; cbn; [done|].
  destruct (disk_readPackage disk (path +:+ "/" +:+ w)) as [cause|sub] eqn:Hw; cbn.
  - destruct (disk_listInstalled disk (path +:+ "/" +:+ w)); cbn;
      intros [= <-]; exists w, cause; (split; [left|done]).
  - destruct (disk_listInstalled disk (path +:+ "/" +:+ w)); cbn;
      destruct (settledViews _ _ _) as [e'|vs']; try done;
      intros [= <-]; destruct IH as (w' & cause & Hin & Hr & He); try done;
      exists w', cause; (split; [by right|done]).
Qed.

Lemma mainFetch_inr path main mainInst :
  mainFetch disk schedule path = inr (main, mainInst) ↔
  disk_readPackage disk path = inr main ∧ disk_listInstalled disk path = inr mainInst.
Proof.
  unfold mainFetch.
  destruct (disk_readPackage disk path) as [e|m],
    (disk_listInstalled disk path) as [e'|mi]; cbn;
    (split; [intros H|intros [H1 H2]]); try discriminate.
  - by injection H as -> ->.
  - by injection H1 as ->; injection H2 as ->.
Qed.

(** The contexts of a run that was not aborted: the root's, then one for
    each traversed member in the order in which the fetches settled. *)
Theorem buildChecks_contexts path traverse σ0 σ checks :
  buildChecks disk schedule path traverse σ0 = (σ, inr checks) →
  ∃ main mainInst c0 cs,
    disk_readPackage disk path = inr main ∧
    disk_listInstalled disk path = inr mainInst ∧
    checks = c0 :: cs ∧
    Forall (validCheck σ) checks ∧
    viewCheck σ c0 = mainView main mainInst ∧
    Forall2 (λ w c, ∃ sub,
        disk_readPackage disk (path +:+ "/" +:+ w) = inr sub ∧
        installedDependencies c ≠ installedDependencies c0 ∧
        viewCheck σ c = workspaceView main mainInst (path +:+ "/" +:+ w) sub
                          (installedOrEmpty disk (path +:+ "/" +:+ w)))
      (settled schedule traverse main) cs.
Proof.
  intros Hrun.
  destruct (buildChecks_spec path traverse σ0) as (σ' & _ & Hspec).
  unfold contextViews in Hspec.
  destruct (mainFetch disk schedule path) as [e|[main mainInst]] eqn:Hmain;
    [by rewrite Hrun in Hspec|].
  apply mainFetch_inr in Hmain as [Hm Hmi].
  destruct (settledViews _ _ _) as [e|vs] eqn:Hvs; [by rewrite Hrun in Hspec|].
  destruct Hspec as (c & cs & R & V & C & F).
  rewrite Hrun in R. injection R as <- ->.
  cbn in C.
  assert (C0 : viewCheck σ c = mainView main mainInst) by congruence.
  assert (Ccs : viewCheck σ <$> cs = vs) by congruence.
  exists main, mainInst, c, cs. do 5 (split; [done|]).
  apply settledViews_inr in Hvs. subst vs.
  apply Forall2_fmap_r in Hvs. clear -Hvs F.
  induction Hvs as [|w c' ws cs (sub & Hr & Hv) Hrest IH]; [constructor|].
  apply Forall_cons in F as [Hne F].
  constructor; [by exists sub|by apply IH].
Qed.

End contexts.

(** ** The two loops *)

Section loops.

Variable checkPackageVersions : Obj → InstalledMap → Obj → EvaluatorResult.
Variable checkEngineVersions : Obj → Obj → InstalledMap → Obj → EvaluatorResult.

Lemma lookup_withoutIgnored engineIgnores (o : Obj) name :
  withoutIgnored engineIgnores o !! name
  = if decide (name ∈ engineIgnores) then None else o !! name.
Proof.
  unfold withoutIgnored. revert o.
  induction engineIgnores as [|i l IH]; intros o.
  - by destruct (decide (name ∈ [])) as [H%elem_of_nil|].
  - cbn [foldl]. rewrite IH. destruct (decide (name = i)) as [->|Hne].
    + rewrite (decide_True (P := i ∈ i :: l)) by left.
      case_decide; [done|]. apply lookup_delete_eq.
    + rewrite lookup_delete_ne by done.
      destruct (decide (name ∈ l)) as [H1|H1].
      * by rewrite decide_True by (by right).
      * rewrite decide_False; [done|]. by intros [?|?]%elem_of_cons.
Qed.

Lemma deleteProperty_loop target names σ :
  validObject σ target →
  foldM (λ (_ : unit) name, deleteProperty target name) () names σ
  = (mkHeap (<[target := withoutIgnored names (objectAt σ target)]> (objects σ))
            (maps σ) (io σ), inr ()).
Proof.
  revert σ. induction names as [|name names IH]; intros σ Hv; simpl.
  - unfold withoutIgnored. simpl. rewrite insert_objectAt by done. by destruct σ.
  - erewrite bind_inr; [|reflexivity]. simpl.
    rewrite IH by (unfold validObject in *; simpl; by rewrite length_insert).
    simpl. by rewrite list_insert_insert_eq, objectAt_insert_eq.
Qed.

(** Lines 112-116 allocate one object, the filtered copy, and write to no
    other. *)
Lemma engineDependencies_run engineNoDev engineIgnores check σ :
  validCheck σ check →
  engineDependencies engineNoDev engineIgnores check σ
  = (mkHeap (objects σ ++ [withoutIgnored engineIgnores
                             (copyOf (objectAt σ (engineSource engineNoDev check)))])
            (maps σ) (io σ),
     inr (length (objects σ))).
Proof.
  intros (V1 & V2 & V3 & V4 & V5). unfold engineDependencies.
  fold (engineSource engineNoDev check).
  assert (Vs : validObject σ (engineSource engineNoDev check)).
  { unfold engineSource. by destruct engineNoDev. }
  set (n := length (objects σ)). unfold validObject in Vs. fold n in Vs.
  set (σ1 := mkHeap (objects σ ++ [∅]) (maps σ) (io σ)).
  assert (Vn : validObject σ1 n).
  { unfold validObject, σ1. simpl. rewrite length_app. simpl. fold n. lia. }
  erewrite bind_inr; [|reflexivity]. fold n σ1.
  erewrite bind_inr.
  2:{ apply Object_assign_run; [done|]. intros ->%list_elem_of_singleton. lia. }
  erewrite bind_inr.
  2:{ apply deleteProperty_loop. unfold validObject in *. simpl.
      by rewrite length_insert. }
  unfold mret, M_ret.
  rewrite objectAt_insert_eq by done.
  assert (Hn : objectAt σ1 n = ∅).
  { unfold objectAt, σ1. simpl. by rewrite list_lookup_middle. }
  rewrite Hn. cbn [fmap list_fmap]. rewrite assigned_one.
  assert (Hs : objectAt σ1 (engineSource engineNoDev check)
               = objectAt σ (engineSource engineNoDev check)).
  { unfold objectAt, σ1. simpl. by rewrite lookup_app_l. }
  rewrite Hs. cbn [objects maps io]. rewrite list_insert_insert_eq.
  unfold σ1. simpl.
  rewrite insert_app_r_alt by (fold n; lia). fold n. rewrite Nat.sub_diag. done.
Qed.

Lemma block_app lines vs ws :
  block lines (vs ++ ws) = block lines vs ++ block lines ws.
Proof. unfold block. by rewrite bind_app. Qed.

Lemma block_cons lines v vs :
  block lines (v :: vs) = (viewLabel v <$> lines v) ++ block lines vs.
Proof. done. Qed.

Lemma versionArguments_run check σ :
  versionArguments check σ
  = (σ, inr (objectAt σ (requiredDependencies check),
             mapAt σ (installedDependencies check),
             objectAt σ (optionalDependencies check))).
Proof. reflexivity. Qed.

Lemma engineArguments_run engineNoDev engineIgnores check σ :
  validCheck σ check →
  engineArguments engineNoDev engineIgnores check σ
  = (mkHeap (objects σ ++ [engineView engineNoDev engineIgnores (viewCheck σ check)])
            (maps σ) (io σ),
     inr (view_engines (viewCheck σ check),
          engineView engineNoDev engineIgnores (viewCheck σ check),
          view_installedDependencies (viewCheck σ check),
          view_optionalDependencies (viewCheck σ check))).
Proof.
  intros Hv. unfold engineArguments.
  erewrite bind_inr; [|by apply engineDependencies_run].
  assert (Hsrc : withoutIgnored engineIgnores
                   (copyOf (objectAt σ (engineSource engineNoDev check)))
                 = engineView engineNoDev engineIgnores (viewCheck σ check)).
  { unfold engineView, engineSource. by destruct engineNoDev. }
  rewrite Hsrc.
  set (σ' := mkHeap _ _ _).
  assert (E : extends σ σ') by apply extends_objects_app.
  destruct Hv as (V1 & V2 & V3 & V4 & V5).
  assert (Hnew : objectAt σ' (length (objects σ))
                 = engineView engineNoDev engineIgnores (viewCheck σ check)).
  { unfold objectAt, σ'. simpl. by rewrite list_lookup_middle. }
  unfold mbind, M_bind, getObject, getMap, mret, M_ret.
  rewrite Hnew.
  by rewrite !(extends_objectAt σ σ'), (extends_mapAt σ σ') by done.
Qed.

Lemma versionStep_run acc check σ :
  versionStep checkPackageVersions acc check σ
  = (σ, inr (acc.1 ++ (viewLabel (viewCheck σ check)
                         <$> result_errors
                               (versionResult checkPackageVersions (viewCheck σ check))),
             acc.2 ++ (viewLabel (viewCheck σ check)
                         <$> result_warnings
                               (versionResult checkPackageVersions (viewCheck σ check))))).
Proof. reflexivity. Qed.

Lemma engineStep_run engineNoDev engineIgnores acc check σ :
  validCheck σ check →
  engineStep checkEngineVersions engineNoDev engineIgnores acc check σ
  = (mkHeap (objects σ ++ [engineView engineNoDev engineIgnores (viewCheck σ check)])
            (maps σ) (io σ),
     inr (addLines acc check
            (engineResult checkEngineVersions engineNoDev engineIgnores
               (viewCheck σ check)))).
Proof.
  intros Hv. unfold engineStep.
  erewrite bind_inr; [|by apply engineArguments_run]. reflexivity.
Qed.

Lemma versionLoop_run acc checks σ :
  foldM (versionStep checkPackageVersions) acc checks σ
  = (σ, inr (acc.1 ++ block (result_errors ∘ versionResult checkPackageVersions)
                        (viewCheck σ <$> checks),
             acc.2 ++ block (result_warnings ∘ versionResult checkPackageVersions)
                        (viewCheck σ <$> checks))).
Proof.
  revert acc. induction checks as [|c checks IH]; intros acc.
  - simpl. unfold block. simpl. rewrite !app_nil_r. by destruct acc.
  - cbn [foldM]. erewrite bind_inr; [|apply versionStep_run].
    rewrite IH. cbn [fst snd fmap list_fmap]. rewrite !block_cons.
    by rewrite <- !app_assoc.
Qed.

Lemma engineLoop_run engineNoDev engineIgnores acc checks σ :
  Forall (validCheck σ) checks →
  ∃ σ',
    extends σ σ' ∧ maps σ' = maps σ ∧ io σ' = io σ ∧
    foldM (engineStep checkEngineVersions engineNoDev engineIgnores) acc checks σ
    = (σ', inr (acc.1 ++ block (result_errors
                                  ∘ engineResult checkEngineVersions engineNoDev
                                      engineIgnores)
                           (viewCheck σ <$> checks),
                acc.2 ++ block (result_warnings
                                  ∘ engineResult checkEngineVersions engineNoDev
                                      engineIgnores)
                           (viewCheck σ <$> checks))).
Proof.
  revert acc σ. induction checks as [|c checks IH]; intros acc σ Hv.
  - exists σ. repeat split; try done.
    simpl. unfold block. simpl. rewrite !app_nil_r. by destruct acc.
  - apply Forall_cons in Hv as [Hc Hv].
    set (σ1 := mkHeap (objects σ ++ [engineView engineNoDev engineIgnores (viewCheck σ c)])
                 (maps σ) (io σ)).
    assert (E1 : extends σ σ1) by apply extends_objects_app.
    destruct (IH (addLines acc c
                    (engineResult checkEngineVersions engineNoDev engineIgnores
                       (viewCheck σ c)))
                σ1) as (σ2 & E2 & M2 & I2 & R2).
    { eapply Forall_impl; [exact Hv|]. intros c'. by apply extends_validCheck. }
    exists σ2. split; [by etrans|]. split; [done|]. split; [done|].
    cbn [foldM]. erewrite bind_inr; [|by apply engineStep_run].
    fold σ1. rewrite R2. do 2 f_equal.
    assert (Hviews : viewCheck σ1 <$> checks = viewCheck σ <$> checks).
    { apply list_fmap_ext. intros i c' Hc'. apply extends_viewCheck; [done|].
      eapply Forall_lookup_1; eauto. }
    rewrite Hviews. cbn [fmap list_fmap]. rewrite !block_cons.
    unfold addLines. cbn [fst snd].
    assert (Hl : label c = viewLabel (viewCheck σ c)) by done.
    rewrite Hl. by rewrite <- !app_assoc.
Qed.

Lemma runChecks_spec engineCheck versionCheck engineNoDev engineIgnores checks σ :
  Forall (validCheck σ) checks →
  ∃ σ',
    extends σ σ' ∧ maps σ' = maps σ ∧ io σ' = io σ ∧
    runChecks checkPackageVersions checkEngineVersions
      engineCheck versionCheck engineNoDev engineIgnores checks σ
    = (σ', inr (resultOf checkPackageVersions checkEngineVersions
                  engineCheck versionCheck engineNoDev engineIgnores
                  (viewCheck σ <$> checks))).
Proof.
  intros Hv. unfold runChecks, resultOf.
  destruct (engineLoop_run engineNoDev engineIgnores
              (if versionCheck
               then (block (result_errors ∘ versionResult checkPackageVersions)
                       (viewCheck σ <$> checks),
                     block (result_warnings ∘ versionResult checkPackageVersions)
                       (viewCheck σ <$> checks))
               else ([], [])) checks σ Hv) as (σ' & E & Hm & Hi & R).
  destruct versionCheck, engineCheck.
  - exists σ'. do 3 (split; [done|]).
    erewrite bind_inr; [|apply versionLoop_run].
    erewrite bind_inr; [|exact R]. done.
  - exists σ. do 3 (split; [done|]).
    erewrite bind_inr; [|apply versionLoop_run].
    erewrite bind_inr; [|reflexivity]. simpl. by rewrite !app_nil_r.
  - exists σ'. do 3 (split; [done|]).
    erewrite bind_inr; [|reflexivity].
    erewrite bind_inr; [|exact R]. done.
  - exists σ. by do 3 (split; [done|]).
Qed.

End loops.

(** * The whole run *)

Section run.

Variable checkPackageVersions : Obj → InstalledMap → Obj → EvaluatorResult.
Variable checkEngineVersions : Obj → Obj → InstalledMap → Obj → EvaluatorResult.
Variable disk : Disk.
Variable schedule : Schedule.

Theorem installedCheck_spec options σ :
  default false (opt_engineCheck options) || default false (opt_versionCheck options)
    = true →
  ∃ σ',
    extends σ σ' ∧
    installedCheck checkPackageVersions checkEngineVersions disk schedule
      (Some options) σ
    = (σ', outcome checkPackageVersions checkEngineVersions disk schedule options).
Proof.
  intros Hen. unfold installedCheck, outcome.
  replace (negb (default false (opt_engineCheck options))
           && negb (default false (opt_versionCheck options))) with false
    by (by destruct (default false (opt_engineCheck options)),
             (default false (opt_versionCheck options))).
  destruct (buildChecks_spec disk schedule (default "." (opt_path options))
              (default true (opt_traverseWorkspaces options)) σ) as (σ1 & E1 & Hb).
  destruct (contextViews _ _ _ _) as [e|vs].
  { exists σ1. split; [done|]. by erewrite bind_inl. }
  destruct Hb as (c & cs & R & V & C & _).
  destruct (runChecks_spec checkPackageVersions checkEngineVersions
              (default false (opt_engineCheck options))
              (default false (opt_versionCheck options))
              (default false (opt_engineNoDev options))
              (default [] (opt_engineIgnores options)) (c :: cs) σ1 V)
    as (σ2 & E2 & _ & _ & R2).
  exists σ2. split; [by etrans|].
  erewrite bind_inr; [|exact R]. by rewrite R2, C.
Qed.

End run.

(** ** The context of a given check *)

Section contexts_of_checks.

Variable disk : Disk.
Variable schedule : Schedule.

Lemma truthy_subpath path w : truthy (path +:+ "/" +:+ w) = true.
Proof. by destruct path. Qed.

Lemma viewLabel_root main mainInst str :
  viewLabel (mainView main mainInst) str = str.
Proof. done. Qed.

Lemma fmap_viewLabel_root main mainInst (lines : list string) :
  viewLabel (mainView main mainInst) <$> lines = lines.
Proof. induction lines as [|l lines IH]; [done|]. cbn. by rewrite IH. Qed.

Lemma viewLabel_member main mainInst path w sub subInst str :
  viewLabel (workspaceView main mainInst (path +:+ "/" +:+ w) sub subInst) str
  = "[" +:+ (path +:+ "/" +:+ w) +:+ "] " +:+ str.
Proof. unfold viewLabel. simpl. by rewrite truthy_subpath. Qed.

(** A context without subpath is the root's. *)
Lemma buildChecks_root path traverse σ0 σ checks c :
  buildChecks disk schedule path traverse σ0 = (σ, inr checks) →
  c ∈ checks → subpath c = None →
  ∃ main mainInst,
    disk_readPackage disk path = inr main ∧
    disk_listInstalled disk path = inr mainInst ∧
    validCheck σ c ∧
    viewCheck σ c = mainView main mainInst.
Proof.
  intros Hrun Hc Hsp.
  destruct (buildChecks_contexts disk schedule path traverse σ0 σ checks Hrun)
    as (main & mainInst & c0 & cs & Hm & Hmi & -> & V & C0 & Hcs).
  exists main, mainInst. do 2 (split; [done|]).
  split; [by eapply Forall_forall in V|].
  apply elem_of_cons in Hc as [->|Hc]; [done|].
  apply list_elem_of_lookup in Hc as [i Hi].
  destruct (Forall2_lookup_r _ _ _ _ _ Hcs Hi) as (w & _ & sub & _ & _ & Hv).
  apply (f_equal view_subpath) in Hv. simpl in Hv. congruence.
Qed.

(** A context with a subpath is a member's: the manifest at the subpath
    was read, and the context is the one of [workspaceView]. *)
Lemma buildChecks_member path traverse σ0 σ checks c sp :
  buildChecks disk schedule path traverse σ0 = (σ, inr checks) →
  c ∈ checks → subpath c = Some sp →
  ∃ main mainInst sub w c0,
    disk_readPackage disk path = inr main ∧
    disk_listInstalled disk path = inr mainInst ∧
    w ∈ settled schedule traverse main ∧
    sp = path +:+ "/" +:+ w ∧
    disk_readPackage disk sp = inr sub ∧
    validCheck σ c ∧
    c0 ∈ checks ∧ subpath c0 = None ∧
    installedDependencies c ≠ installedDependencies c0 ∧
    viewCheck σ c = workspaceView main mainInst sp sub (installedOrEmpty disk sp).
Proof.
  intros Hrun Hc Hsp.
  destruct (buildChecks_contexts disk schedule path traverse σ0 σ checks Hrun)
    as (main & mainInst & c0 & cs & Hm & Hmi & -> & V & C0 & Hcs).
  assert (Vc : validCheck σ c) by (by eapply Forall_forall in V).
  assert (Hsp0 : subpath c0 = None) by apply (f_equal view_subpath C0).
  apply elem_of_cons in Hc as [->|Hc]; [congruence|].
  apply list_elem_of_lookup in Hc as [i Hi].
  destruct (Forall2_lookup_r _ _ _ _ _ Hcs Hi) as (w & Hw & sub & Hr & Hne & Hv).
  assert (Hsp' : sp = path +:+ "/" +:+ w).
  { apply (f_equal view_subpath) in Hv. simpl in Hv. congruence. }
  exists main, mainInst, sub, w, c0. subst sp.
  do 2 (split; [done|]). split; [by eapply list_elem_of_lookup_2|].
  do 3 (split; [done|]). split; [left|]. by do 2 (split; [done|]).
Qed.

Lemma omap_lookup_seq {A} (l : list A) :
  omap (λ i, l !! i) (seq 0 (length l)) = l.
Proof.
  assert (H : ∀ k n, k = length l - n → omap (λ i, l !! i) (seq n k) = drop n l).
  { induction k as [|k IH]; intros n Hk; simpl.
    - by rewrite drop_ge by lia.
    - destruct (lookup_lt_is_Some_2 l n) as [x Hx]; [lia|].
      rewrite Hx. simpl. rewrite IH by lia.
      by rewrite <- (drop_S _ _ _ Hx). }
  rewrite (H (length l) 0) by lia. done.
Qed.

(** When every member's fetch settles exactly once, the settled members
    are the traversed members, in some order. *)
Lemma settled_Permutation traverse main :
  member_order schedule ≡ₚ seq 0 (length (members traverse main)) →
  settled schedule traverse main ≡ₚ members traverse main.
Proof.
  intros Hp. unfold settled. rewrite Hp. by rewrite omap_lookup_seq.
Qed.

(** When the fetches settle in the declared order, so are the settled
    members. *)
Lemma settled_in_order traverse main :
  member_order schedule = seq 0 (length (members traverse main)) →
  settled schedule traverse main = members traverse main.
Proof.
  intros Hp. unfold settled. rewrite Hp. apply omap_lookup_seq.
Qed.

End contexts_of_checks.

(** The required and optional sets of any context are those of the
    manifest at its path. *)
Lemma context_dependency_sets disk schedule path traverse σ0 σ checks c :
  buildChecks disk schedule path traverse σ0 = (σ, inr checks) →
  c ∈ checks →
  ∃ pkg,
    disk_readPackage disk (default path (subpath c)) = inr pkg ∧
    validCheck σ c ∧
    view_requiredDependencies (viewCheck σ c)
      = copyOf (default ∅ (pkg_devDependencies pkg) ∪ default ∅ (pkg_dependencies pkg)) ∧
    view_optionalDependencies (viewCheck σ c)
      = copyOf (default ∅ (pkg_optionalDependencies pkg)).
Proof.
  intros Hrun Hc.
  destruct (subpath c) as [sp|] eqn:Hsp.
  - destruct (buildChecks_member disk schedule path traverse σ0 σ checks c sp Hrun Hc Hsp)
      as (main & mainInst & sub & w & c0 & _ & _ & _ & _ & Hsub & V & _ & _ & _ & Hv).
    exists sub. rewrite Hv. do 2 (split; [done|]). split; [apply copyOf_union|done].
  - destruct (buildChecks_root disk schedule path traverse σ0 σ checks c Hrun Hc Hsp)
      as (main & mainInst & Hm & _ & V & Hv).
    exists main. rewrite Hv. do 2 (split; [done|]). split; [apply copyOf_union|done].
Qed.

(** * The claims *)

(** C1, as amended.  With both checks enabled the errors, and likewise the
    warnings, are grouped by evaluator: first the lines of the version
    check for every context, in the order of the contexts, then the lines
    of the engine check for every context, in the order of the contexts. *)
Theorem C1_lines_grouped_by_evaluator checkPackageVersions checkEngineVersions
    disk schedule options σ σ' result :
  opt_engineCheck options = Some true →
  opt_versionCheck options = Some true →
  installedCheck checkPackageVersions checkEngineVersions disk schedule
    (Some options) σ = (σ', inr result) →
  ∃ vs,
    contextViews disk schedule (default "." (opt_path options))
      (default true (opt_traverseWorkspaces options)) = inr vs ∧
    errors result
    = block (result_errors ∘ versionResult checkPackageVersions) vs
      ++ block (result_errors
                  ∘ engineResult checkEngineVersions
                      (default false (opt_engineNoDev options))
                      (default [] (opt_engineIgnores options))) vs ∧
    warnings result
    = block (result_warnings ∘ versionResult checkPackageVersions) vs
      ++ block (result_warnings
                  ∘ engineResult checkEngineVersions
                      (default false (opt_engineNoDev options))
                      (default [] (opt_engineIgnores options))) vs.
Proof.
  intros He Hv Hrun.
  destruct (installedCheck_spec checkPackageVersions checkEngineVersions disk schedule
              options σ) as (σ1 & _ & Hspec); [by rewrite He|].
  rewrite Hrun in Hspec. injection Hspec as _ Hout.
  unfold outcome in Hout. destruct (contextViews _ _ _ _) as [e|vs]; [done|].
  injection Hout as ->. exists vs. split; [done|].
  unfold resultOf. by rewrite He, Hv.
Qed.

Lemma C1_witness :
  ∃ vs,
    contextViews sampleDisk inOrder "." true = inr vs ∧
    [versionLine "r"; "[./a] " +:+ versionLine "x"; "[./b] " +:+ versionLine "y";
     engineLine "r"; "[./a] " +:+ engineLine "x"; "[./b] " +:+ engineLine "y"]
    = block (result_errors ∘ versionResult sampleVersions) vs
      ++ block (result_errors ∘ engineResult sampleEngines false []) vs ∧
    [] = block (result_warnings ∘ versionResult sampleVersions) vs
      ++ block (result_warnings ∘ engineResult sampleEngines false []) vs.
Proof.
  apply (C1_lines_grouped_by_evaluator sampleVersions sampleEngines sampleDisk inOrder
           bothChecks emptyHeap
           (installedCheck sampleVersions sampleEngines sampleDisk inOrder
              (Some bothChecks) emptyHeap).1
           (mkResult
              [versionLine "r"; "[./a] " +:+ versionLine "x";
               "[./b] " +:+ versionLine "y"; engineLine "r";
               "[./a] " +:+ engineLine "x"; "[./b] " +:+ engineLine "y"] [] []));
    [reflexivity | reflexivity | vm_compute; reflexivity].
Defined.

(** C1 as stated fails: with both checks enabled and three contexts, the
    engine line of the root context comes after the version lines of the
    members, not directly after the root's version line. *)
Lemma C1_counterexample :
  ∃ σ' result vs,
    installedCheck sampleVersions sampleEngines sampleDisk inOrder
      (Some bothChecks) emptyHeap = (σ', inr result) ∧
    contextViews sampleDisk inOrder "." true = inr vs ∧
    length vs = 3 ∧
    errors result
    = [versionLine "r"; "[./a] " +:+ versionLine "x"; "[./b] " +:+ versionLine "y";
       engineLine "r"; "[./a] " +:+ engineLine "x"; "[./b] " +:+ engineLine "y"] ∧
    perContext (result_errors ∘ versionResult sampleVersions)
      (result_errors ∘ engineResult sampleEngines false []) vs
    = [versionLine "r"; engineLine "r";
       "[./a] " +:+ versionLine "x"; "[./a] " +:+ engineLine "x";
       "[./b] " +:+ versionLine "y"; "[./b] " +:+ engineLine "y"] ∧
    errors result
    ≠ perContext (result_errors ∘ versionResult sampleVersions)
        (result_errors ∘ engineResult sampleEngines false []) vs.
Proof.
  eexists _, _, _. split; [vm_compute; reflexivity|].
  split; [vm_compute; reflexivity|].
  split; [reflexivity|]. split; [reflexivity|].
  split; [vm_compute; reflexivity|].
  vm_compute. discriminate.
Qed.

(** C2, as amended.  The required set of a context is the union of its
    manifest's dependencies and devDependencies without the name
    [__proto__], which [Object.assign] does not copy, and with no other
    name removed; its optional set is the manifest's optionalDependencies,
    without [__proto__] again.  [checkPackageVersions] is called with both
    as they are.  The names of [engineIgnores] are removed only from the
    copy that [checkEngineVersions] is called with (a copy of the required
    set, or of the context's [dependencies] when [engineNoDev] is set): no
    ignored name is in that copy. *)
Theorem C2_dependency_sets checkPackageVersions checkEngineVersions disk schedule
    path traverse σ0 σ checks c :
  buildChecks disk schedule path traverse σ0 = (σ, inr checks) →
  c ∈ checks →
  ∃ pkg required optional,
    disk_readPackage disk (default path (subpath c)) = inr pkg ∧
    required = delete "__proto__"
                 (default ∅ (pkg_devDependencies pkg)
                    ∪ default ∅ (pkg_dependencies pkg)) ∧
    optional = delete "__proto__" (default ∅ (pkg_optionalDependencies pkg)) ∧
    objectAt σ (requiredDependencies c) = required ∧
    objectAt σ (optionalDependencies c) = optional ∧
    ∀ σ1, extends σ σ1 →
      (∀ acc,
         versionStep checkPackageVersions acc c σ1
         = (σ1, inr (addLines acc c
                       (checkPackageVersions required
                          (mapAt σ (installedDependencies c)) optional)))) ∧
      ∀ engineNoDev engineIgnores acc,
        ∃ σ2 deps,
          engineStep checkEngineVersions engineNoDev engineIgnores acc c σ1
          = (σ2, inr (addLines acc c
                        (checkEngineVersions (objectAt σ (engines c)) deps
                           (mapAt σ (installedDependencies c)) optional))) ∧
          deps = withoutIgnored engineIgnores
                   (if engineNoDev
                    then delete "__proto__" (objectAt σ (dependencies c))
                    else required) ∧
          ∀ name, name ∈ engineIgnores → deps !! name = None.
Proof.
  intros Hrun Hc.
  destruct (context_dependency_sets disk schedule path traverse σ0 σ checks c Hrun Hc)
    as (pkg & Hpkg & V & Hreq & Hopt).
  cbn [viewCheck view_requiredDependencies view_optionalDependencies] in Hreq, Hopt.
  eexists pkg, _, _. do 3 (split; [done|]). do 2 (split; [done|]).
  intros σ1 E1.
  assert (V1 : validCheck σ1 c) by (by eapply extends_validCheck).
  pose proof (extends_viewCheck σ σ1 c E1 V) as Hview.
  split.
  - intros acc.
    assert (Hstep : versionStep checkPackageVersions acc c σ1
                    = (σ1, inr (addLines acc c
                                  (versionResult checkPackageVersions (viewCheck σ1 c)))))
      by reflexivity.
    rewrite Hstep, Hview. unfold versionResult.
    cbn [viewCheck view_requiredDependencies view_optionalDependencies
           view_installedDependencies].
    by rewrite Hreq, Hopt.
  - intros engineNoDev engineIgnores acc. eexists _, _.
    split; [|split].
    + rewrite engineStep_run by done. rewrite Hview. unfold engineResult.
      cbn [viewCheck view_engines view_optionalDependencies view_installedDependencies].
      rewrite Hopt. reflexivity.
    + unfold engineView.
      cbn [viewCheck view_dependencies view_requiredDependencies].
      destruct engineNoDev; [done|]. by rewrite Hreq, copyOf_idemp.
    + intros name Hname. unfold engineView.
      rewrite lookup_withoutIgnored. by rewrite decide_True.
Qed.

Lemma C2_witness :
  ∃ pkg required optional,
    disk_readPackage protoDisk "." = inr pkg ∧
    required = delete "__proto__"
                 (default ∅ (pkg_devDependencies pkg)
                    ∪ default ∅ (pkg_dependencies pkg)) ∧
    optional = delete "__proto__" (default ∅ (pkg_optionalDependencies pkg)) ∧
    objectAt protoStore (requiredDependencies protoRoot) = required ∧
    objectAt protoStore (optionalDependencies protoRoot) = optional ∧
    ∀ σ1, extends protoStore σ1 →
      (∀ acc,
         versionStep sampleVersions acc protoRoot σ1
         = (σ1, inr (addLines acc protoRoot
                       (sampleVersions required
                          (mapAt protoStore (installedDependencies protoRoot))
                          optional)))) ∧
      ∀ engineNoDev engineIgnores acc,
        ∃ σ2 deps,
          engineStep sampleEngines engineNoDev engineIgnores acc protoRoot σ1
          = (σ2, inr (addLines acc protoRoot
                        (sampleEngines (objectAt protoStore (engines protoRoot)) deps
                           (mapAt protoStore (installedDependencies protoRoot))
                           optional))) ∧
          deps = withoutIgnored engineIgnores
                   (if engineNoDev
                    then delete "__proto__" (objectAt protoStore (dependencies protoRoot))
                    else required) ∧
          ∀ name, name ∈ engineIgnores → deps !! name = None.
Proof.
  apply (C2_dependency_sets sampleVersions sampleEngines protoDisk (mkSchedule true [])
           "." true emptyHeap protoStore [protoRoot] protoRoot).
  - vm_compute. reflexivity.
  - left.
Defined.

(** C2 as stated fails: [r] is listed in [engineIgnores], and the required
    set that the version evaluator is handed for the root context still
    holds [r]; the run reports it. *)
Lemma C2_counterexample :
  "r" ∈ default [] (opt_engineIgnores bothChecksIgnoringR) ∧
  buildChecks sampleDisk inOrder "." true emptyHeap
    = (sampleStore, inr [sampleRoot; sampleA; sampleB]) ∧
  versionArguments sampleRoot sampleStore
    = (sampleStore, inr ({["r" := "1.0.0"]}, sampleInstalled, ∅)) ∧
  ∃ σ' result,
    installedCheck sampleVersions sampleEngines sampleDisk inOrder
      (Some bothChecksIgnoringR) emptyHeap = (σ', inr result) ∧
    errors result
    = [versionLine "r"; "[./a] " +:+ versionLine "x"; "[./b] " +:+ versionLine "y";
       "[./a] " +:+ engineLine "x"; "[./b] " +:+ engineLine "y"].
Proof.
  split; [left|]. split; [vm_compute; reflexivity|].
  split; [vm_compute; reflexivity|].
  eexists _, _. split; [vm_compute; reflexivity|]. reflexivity.
Qed.

(** C3, as amended.  In a run that traverses the workspaces and in which
    every member's fetch settles, a line of a member's context is the
    evaluator's line behind the prefix [[<path>/<member>] ], and a line of
    the root context is the evaluator's line as it is.  The lines of each
    evaluator form one block, the version block before the engine block;
    within a block the root's lines come first and are followed by the
    members' lines, member by member, for every traversed member once.  So
    with one of the two checks enabled every member line comes after every
    root line.  The members follow the declared order when their fetches
    settle in that order. *)
Theorem C3_member_lines checkPackageVersions checkEngineVersions disk schedule
    options σ σ' result main :
  disk_readPackage disk (default "." (opt_path options)) = inr main →
  member_order schedule
    ≡ₚ seq 0 (length (members (default true (opt_traverseWorkspaces options)) main)) →
  installedCheck checkPackageVersions checkEngineVersions disk schedule
    (Some options) σ = (σ', inr result) →
  ∃ rootView memberViews,
    contextViews disk schedule (default "." (opt_path options))
      (default true (opt_traverseWorkspaces options)) = inr (rootView :: memberViews) ∧
    (∀ str, viewLabel rootView str = str) ∧
    Forall2 (λ w v, ∀ str,
        viewLabel v str
        = "[" +:+ (default "." (opt_path options) +:+ "/" +:+ w) +:+ "] " +:+ str)
      (settled schedule (default true (opt_traverseWorkspaces options)) main)
      memberViews ∧
    settled schedule (default true (opt_traverseWorkspaces options)) main
      ≡ₚ members (default true (opt_traverseWorkspaces options)) main ∧
    (member_order schedule
       = seq 0 (length (members (default true (opt_traverseWorkspaces options)) main)) →
     settled schedule (default true (opt_traverseWorkspaces options)) main
       = members (default true (opt_traverseWorkspaces options)) main) ∧
    errors result
    = (if default false (opt_versionCheck options)
       then result_errors (versionResult checkPackageVersions rootView)
            ++ block (result_errors ∘ versionResult checkPackageVersions) memberViews
       else [])
      ++ (if default false (opt_engineCheck options)
          then result_errors
                 (engineResult checkEngineVersions
                    (default false (opt_engineNoDev options))
                    (default [] (opt_engineIgnores options)) rootView)
               ++ block (result_errors
                           ∘ engineResult checkEngineVersions
                               (default false (opt_engineNoDev options))
                               (default [] (opt_engineIgnores options))) memberViews
          else []) ∧
    warnings result
    = (if default false (opt_versionCheck options)
       then result_warnings (versionResult checkPackageVersions rootView)
            ++ block (result_warnings ∘ versionResult checkPackageVersions) memberViews
       else [])
      ++ (if default false (opt_engineCheck options)
          then result_warnings
                 (engineResult checkEngineVersions
                    (default false (opt_engineNoDev options))
                    (default [] (opt_engineIgnores options)) rootView)
               ++ block (result_warnings
                           ∘ engineResult checkEngineVersions
                               (default false (opt_engineNoDev options))
                               (default [] (opt_engineIgnores options))) memberViews
          else []).
Proof.
  intros Hmain Hperm Hrun.
  set (path := default "." (opt_path options)) in *.
  set (traverse := default true (opt_traverseWorkspaces options)) in *.
  assert (Hen : default false (opt_engineCheck options)
                || default false (opt_versionCheck options) = true).
  { destruct (default false (opt_engineCheck options)) eqn:He; [done|].
    destruct (default false (opt_versionCheck options)) eqn:Hv; [done|].
    unfold installedCheck in Hrun. by rewrite He, Hv in Hrun. }
  destruct (installedCheck_spec checkPackageVersions checkEngineVersions disk schedule
              options σ Hen) as (σ1 & _ & Hspec).
  rewrite Hrun in Hspec. injection Hspec as _ Hout.
  unfold outcome in Hout. fold path traverse in Hout.
  unfold contextViews in *.
  destruct (mainFetch disk schedule path) as [e|[main' mainInst]] eqn:Hfetch; [done|].
  apply mainFetch_inr in Hfetch as [Hm Hmi].
  assert (main' = main) as -> by congruence.
  destruct (settledViews _ _ _) as [e|vs] eqn:Hvs; [done|].
  injection Hout as ->.
  exists (mainView main mainInst), vs. split; [done|].
  split; [done|]. split.
  { apply settledViews_inr in Hvs.
    eapply Forall2_impl; [exact Hvs|].
    intros w v (sub & _ & ->) str. apply viewLabel_member. }
  split; [by apply settled_Permutation|].
  split; [by apply settled_in_order|].
  unfold resultOf. cbn [errors warnings]. rewrite !block_cons.
  unfold compose. by rewrite !fmap_viewLabel_root.
Qed.

Lemma C3_witness :
  ∃ rootView memberViews,
    contextViews sampleDisk inOrder "." true = inr (rootView :: memberViews) ∧
    Forall2 (λ w v, ∀ str, viewLabel v str = "[" +:+ ("." +:+ "/" +:+ w) +:+ "] " +:+ str)
      ["a"; "b"] memberViews ∧
    [versionLine "r"; "[./a] " +:+ versionLine "x"; "[./b] " +:+ versionLine "y"]
    = result_errors (versionResult sampleVersions rootView)
      ++ block (result_errors ∘ versionResult sampleVersions) memberViews.
Proof.
  destruct (C3_member_lines sampleVersions sampleEngines sampleDisk inOrder
              versionOnly emptyHeap
              (installedCheck sampleVersions sampleEngines sampleDisk inOrder
                 (Some versionOnly) emptyHeap).1
              (mkResult [versionLine "r"; "[./a] " +:+ versionLine "x";
                         "[./b] " +:+ versionLine "y"] [] [])
              sampleMain)
    as (rootView & memberViews & Hviews & _ & Hlabels & _ & Horder & Herrors & _).
  - reflexivity.
  - reflexivity.
  - vm_compute. reflexivity.
  - exists rootView, memberViews. split; [exact Hviews|]. split.
    + rewrite Horder in Hlabels by reflexivity. exact Hlabels.
    + simpl in Herrors. rewrite app_nil_r in Herrors. exact Herrors.
Defined.

(** C3 as stated fails: with both checks enabled, the root line
    [r: engine mismatch] comes after the member line
    [[./a] x installed version (2.0.0) does not satisfy (1.0.0)]. *)
Lemma C3_counterexample :
  ∃ σ' result,
    default true (opt_traverseWorkspaces bothChecks) = true ∧
    members true sampleMain = ["a"; "b"] ∧
    installedCheck sampleVersions sampleEngines sampleDisk inOrder
      (Some bothChecks) emptyHeap = (σ', inr result) ∧
    errors result
    = [versionLine "r"; "[./a] " +:+ versionLine "x"; "[./b] " +:+ versionLine "y";
       engineLine "r"; "[./a] " +:+ engineLine "x"; "[./b] " +:+ engineLine "y"] ∧
    errors result !! 1 = Some (label sampleA (versionLine "x")) ∧
    errors result !! 3 = Some (label sampleRoot (engineLine "r")).
Proof.
  eexists _, _. split; [reflexivity|]. split; [reflexivity|].
  split; [vm_compute; reflexivity|]. by repeat split.
Qed.

(** C4.  When neither check is enabled ([engineCheck] and [versionCheck]
    false or left undefined), [installedCheck] throws the configuration
    error and leaves the store as it found it: no manifest read and no
    installed-snapshot read has been started. *)
Theorem C4_no_check_fails_before_io checkPackageVersions checkEngineVersions
    disk schedule options σ :
  default false (opt_engineCheck options) = false →
  default false (opt_versionCheck options) = false →
  installedCheck checkPackageVersions checkEngineVersions disk schedule (Some options) σ
  = (σ, inl (Error "Expected to run at least one check. Add engineCheck and/or versionCheck"))
  ∧ io (installedCheck checkPackageVersions checkEngineVersions disk schedule
          (Some options) σ).1 = io σ.
Proof.
  intros He Hv. unfold installedCheck. rewrite He, Hv. by split.
Qed.

Lemma C4_witness :
  installedCheck sampleVersions sampleEngines sampleDisk inOrder (Some noCheck) emptyHeap
  = (emptyHeap,
     inl (Error "Expected to run at least one check. Add engineCheck and/or versionCheck"))
  ∧ io (installedCheck sampleVersions sampleEngines sampleDisk inOrder
          (Some noCheck) emptyHeap).1 = [].
Proof.
  apply (C4_no_check_fails_before_io sampleVersions sampleEngines sampleDisk inOrder
           noCheck emptyHeap); reflexivity.
Defined.

(** C5.  In a run whose root reads succeed and in which every member's
    fetch settles: if the manifest of a traversed member cannot be read,
    the run is aborted with the wrapped error of such a member; otherwise
    the run is not aborted, whatever the members' installed-snapshot reads
    do, a context is built for every member, and the snapshot of a member
    whose read fails counts as empty, so that its context holds the root
    snapshot, while a member whose read succeeds has its own snapshot laid
    over the root's. *)
Theorem C5_member_read_failures checkPackageVersions checkEngineVersions disk schedule
    options σ main mainInst :
  default false (opt_engineCheck options) || default false (opt_versionCheck options)
    = true →
  disk_readPackage disk (default "." (opt_path options)) = inr main →
  disk_listInstalled disk (default "." (opt_path options)) = inr mainInst →
  member_order schedule
    ≡ₚ seq 0 (length (members (default true (opt_traverseWorkspaces options)) main)) →
  ((∃ w cause,
      w ∈ members (default true (opt_traverseWorkspaces options)) main ∧
      disk_readPackage disk (default "." (opt_path options) +:+ "/" +:+ w) = inl cause) →
   ∃ σ' w cause,
     w ∈ members (default true (opt_traverseWorkspaces options)) main ∧
     disk_readPackage disk (default "." (opt_path options) +:+ "/" +:+ w) = inl cause ∧
     installedCheck checkPackageVersions checkEngineVersions disk schedule
       (Some options) σ
     = (σ', inl (ErrorWithCause "Failed to read workspace package.json" cause)))
  ∧
  ((∀ w, w ∈ members (default true (opt_traverseWorkspaces options)) main →
      ∃ sub, disk_readPackage disk (default "." (opt_path options) +:+ "/" +:+ w)
             = inr sub) →
   (∃ σ' result,
      installedCheck checkPackageVersions checkEngineVersions disk schedule
        (Some options) σ = (σ', inr result)) ∧
   ∃ σ' c0 cs,
     buildChecks disk schedule (default "." (opt_path options))
       (default true (opt_traverseWorkspaces options)) σ = (σ', inr (c0 :: cs)) ∧
     mapAt σ' (installedDependencies c0) = mainInst ∧
     Forall2 (λ w c,
         subpath c = Some (default "." (opt_path options) +:+ "/" +:+ w) ∧
         (∀ e, disk_listInstalled disk (default "." (opt_path options) +:+ "/" +:+ w)
               = inl e →
               mapAt σ' (installedDependencies c) = mainInst) ∧
         (∀ m, disk_listInstalled disk (default "." (opt_path options) +:+ "/" +:+ w)
               = inr m →
               mapAt σ' (installedDependencies c) = m ∪ mainInst))
       (settled schedule (default true (opt_traverseWorkspaces options)) main) cs).
Proof.
  intros Hen Hm Hmi Hperm.
  set (path := default "." (opt_path options)) in *.
  set (traverse := default true (opt_traverseWorkspaces options)) in *.
  apply settled_Permutation in Hperm.
  destruct (installedCheck_spec checkPackageVersions checkEngineVersions disk schedule
              options σ Hen) as (σ1 & _ & Hrun).
  destruct (buildChecks_spec disk schedule path traverse σ) as (σ2 & _ & Hbuild).
  unfold outcome in Hrun. fold path traverse in Hrun.
  unfold contextViews in Hrun, Hbuild.
  assert (Hfetch : mainFetch disk schedule path = inr (main, mainInst))
    by (by apply mainFetch_inr).
  rewrite Hfetch in Hrun, Hbuild.
  destruct (settledViews main mainInst
              (fetchOf disk path <$> settled schedule traverse main))
    as [e|vs] eqn:Hvs.
  - apply settledViews_inl in Hvs as (w & cause & Hw & Hr & ->).
    split.
    + intros _. exists σ1, w, cause. split; [by rewrite <- Hperm|]. by split.
    + intros Hall. destruct (Hall w) as [sub Hsub]; [by rewrite <- Hperm|]. congruence.
  - pose proof (settledViews_inr disk main mainInst path _ _ Hvs) as Hvs'.
    split.
    + intros (w & cause & Hw & Hr). rewrite <- Hperm in Hw.
      apply list_elem_of_lookup in Hw as [i Hi].
      destruct (Forall2_lookup_l _ _ _ _ _ Hvs' Hi) as (v & _ & sub & Hsub & _).
      congruence.
    + intros _. split; [by eauto|].
      destruct Hbuild as (c0 & cs & R & _ & _ & _).
      destruct (buildChecks_contexts disk schedule path traverse σ σ2 _ R)
        as (main' & mainInst' & c0' & cs' & Hm' & Hmi' & Heq & _ & C0 & Hcs).
      injection Heq as <- <-.
      assert (main' = main) as -> by congruence.
      assert (mainInst' = mainInst) as -> by congruence.
      exists σ2, c0, cs. split; [done|]. split.
      { by apply (f_equal view_installedDependencies) in C0. }
      eapply Forall2_impl; [exact Hcs|].
      intros w c (sub & _ & _ & Hv).
      split; [by apply (f_equal view_subpath) in Hv|].
      apply (f_equal view_installedDependencies) in Hv. simpl in Hv.
      unfold installedOrEmpty in Hv.
      split.
      * intros e He. rewrite He in Hv. by rewrite (left_id_L ∅ (∪)) in Hv.
      * intros m Hm0. by rewrite Hm0 in Hv.
Qed.

Lemma C5_witness :
  (∃ σ' cause,
     installedCheck sampleVersions sampleEngines brokenDisk inOrder
       (Some versionOnly) emptyHeap
     = (σ', inl (ErrorWithCause "Failed to read workspace package.json" cause)))
  ∧
  (∃ σ' c0 cs,
     buildChecks sampleDisk inOrder "." true emptyHeap = (σ', inr (c0 :: cs)) ∧
     mapAt σ' (installedDependencies c0) = sampleInstalled ∧
     Forall2 (λ w c,
         subpath c = Some ("." +:+ "/" +:+ w) ∧
         (∀ e, disk_listInstalled sampleDisk ("." +:+ "/" +:+ w) = inl e →
               mapAt σ' (installedDependencies c) = sampleInstalled) ∧
         (∀ m, disk_listInstalled sampleDisk ("." +:+ "/" +:+ w) = inr m →
               mapAt σ' (installedDependencies c) = m ∪ sampleInstalled))
       (settled inOrder true sampleMain) cs).
Proof.
  assert (Hperm : member_order inOrder
            ≡ₚ seq 0 (length (members (default true (opt_traverseWorkspaces versionOnly))
                                sampleMain))) by (vm_compute; reflexivity).
  assert (Hen : default false (opt_engineCheck versionOnly)
                || default false (opt_versionCheck versionOnly) = true) by reflexivity.
  assert (Hinst : ∀ disk, disk_listInstalled disk = disk_listInstalled sampleDisk →
            disk_listInstalled disk (default "." (opt_path versionOnly))
            = inr sampleInstalled).
  { intros disk ->. vm_compute. reflexivity. }
  split.
  - assert (Hmain : disk_readPackage brokenDisk (default "." (opt_path versionOnly))
                    = inr sampleMain) by (vm_compute; reflexivity).
    destruct (proj1 (C5_member_read_failures sampleVersions sampleEngines brokenDisk
                       inOrder versionOnly emptyHeap sampleMain sampleInstalled
                       Hen Hmain (Hinst brokenDisk eq_refl) Hperm))
      as (σ' & w & cause & _ & _ & Hrun).
    + exists "a", (Error "ENOENT"). split; [left|vm_compute; reflexivity].
    + by exists σ', cause.
  - assert (Hmain : disk_readPackage sampleDisk (default "." (opt_path versionOnly))
                    = inr sampleMain) by (vm_compute; reflexivity).
    apply (proj2 (C5_member_read_failures sampleVersions sampleEngines sampleDisk
                    inOrder versionOnly emptyHeap sampleMain sampleInstalled
                    Hen Hmain (Hinst sampleDisk eq_refl) Hperm)).
    intros w Hw. change (w ∈ ["a"; "b"]) in Hw.
    apply elem_of_cons in Hw as [->|Hw]; [eexists; vm_compute; reflexivity|].
    apply list_elem_of_singleton in Hw as ->. eexists; vm_compute; reflexivity.
Defined.

(** C6, as amended.  For the contexts that a run builds and any engine
    evaluation after that ([σ1] is the store at that point): the
    dependencies that [checkEngineVersions] is called with are a newly
    allocated object, which is none of the context's own.  It holds the
    properties of the context's [dependencies] when [engineNoDev] is set
    and of its [requiredDependencies] otherwise, other than [__proto__]
    and the names of [engineIgnores]; without [engineNoDev] that is the
    required set less the ignored names, a required set having no
    [__proto__].  Nothing else in the store is written, so the contents of
    every context are what they were.  The same holds for the whole engine
    loop. *)
Theorem C6_engine_check_keeps_contexts checkEngineVersions disk schedule path traverse
    σ0 σ checks engineNoDev engineIgnores :
  buildChecks disk schedule path traverse σ0 = (σ, inr checks) →
  (∀ c σ1, c ∈ checks → extends σ σ1 →
     ∃ σ2 copy,
       engineDependencies engineNoDev engineIgnores c σ1 = (σ2, inr copy) ∧
       ¬ validObject σ1 copy ∧
       copy ≠ dependencies c ∧ copy ≠ requiredDependencies c ∧
       objectAt σ2 copy
       = withoutIgnored engineIgnores
           (delete "__proto__"
              (objectAt σ1 (if engineNoDev then dependencies c
                            else requiredDependencies c))) ∧
       (engineNoDev = false →
        objectAt σ2 copy
        = withoutIgnored engineIgnores (objectAt σ1 (requiredDependencies c))) ∧
       (∀ name, name ∈ engineIgnores → objectAt σ2 copy !! name = None) ∧
       (∀ acc,
          engineStep checkEngineVersions engineNoDev engineIgnores acc c σ1
          = (σ2, inr (addLines acc c
                        (checkEngineVersions (objectAt σ1 (engines c))
                           (objectAt σ2 copy)
                           (mapAt σ1 (installedDependencies c))
                           (objectAt σ1 (optionalDependencies c)))))) ∧
       (∀ l, validObject σ1 l → objectAt σ2 l = objectAt σ1 l) ∧
       maps σ2 = maps σ1 ∧
       (∀ c', c' ∈ checks →
          objectAt σ2 (dependencies c') = objectAt σ (dependencies c') ∧
          objectAt σ2 (requiredDependencies c') = objectAt σ (requiredDependencies c') ∧
          viewCheck σ2 c' = viewCheck σ c'))
  ∧
  (∀ acc,
     ∃ σ' acc',
       foldM (engineStep checkEngineVersions engineNoDev engineIgnores) acc checks σ
       = (σ', inr acc') ∧
       ∀ c', c' ∈ checks →
         objectAt σ' (dependencies c') = objectAt σ (dependencies c') ∧
         objectAt σ' (requiredDependencies c') = objectAt σ (requiredDependencies c') ∧
         viewCheck σ' c' = viewCheck σ c').
Proof.
  intros Hrun.
  destruct (buildChecks_contexts disk schedule path traverse σ0 σ checks Hrun)
    as (_ & _ & _ & _ & _ & _ & _ & V & _ & _).
  assert (Hkeep : ∀ σ', extends σ σ' → ∀ c', c' ∈ checks →
            objectAt σ' (dependencies c') = objectAt σ (dependencies c') ∧
            objectAt σ' (requiredDependencies c') = objectAt σ (requiredDependencies c') ∧
            viewCheck σ' c' = viewCheck σ c').
  { intros σ' E c' Hc'. eapply Forall_forall in V; [|exact Hc'].
    pose proof V as (_ & V2 & V3 & _).
    split; [by apply extends_objectAt|]. split; [by apply extends_objectAt|].
    by apply extends_viewCheck. }
  split.
  - intros c σ1 Hc E1.
    assert (Vc : validCheck σ1 c).
    { eapply extends_validCheck; [exact E1|]. by eapply Forall_forall in V. }
    set (σ2 := mkHeap (objects σ1 ++ [engineView engineNoDev engineIgnores
                                        (viewCheck σ1 c)]) (maps σ1) (io σ1)).
    assert (E2 : extends σ1 σ2) by apply extends_objects_app.
    assert (Hcopy : objectAt σ2 (length (objects σ1))
                    = engineView engineNoDev engineIgnores (viewCheck σ1 c)).
    { unfold objectAt, σ2. simpl. by rewrite list_lookup_middle. }
    assert (Hsrc : withoutIgnored engineIgnores
                     (copyOf (objectAt σ1 (engineSource engineNoDev c)))
                   = engineView engineNoDev engineIgnores (viewCheck σ1 c)).
    { unfold engineView, engineSource. by destruct engineNoDev. }
    exists σ2, (length (objects σ1)).
    split; [unfold σ2; rewrite <- Hsrc; by apply engineDependencies_run|].
    pose proof Vc as (_ & V2 & V3 & _). unfold validObject in V2, V3.
    split; [unfold validObject; lia|]. split; [lia|]. split; [lia|].
    split; [by rewrite Hcopy; destruct engineNoDev|]. split.
    { intros ->. rewrite Hcopy. unfold engineView.
      cbn [viewCheck view_requiredDependencies]. f_equal.
      destruct (context_dependency_sets disk schedule path traverse σ0 σ checks c
                  Hrun Hc) as (pkg & _ & Vσ & Hreq & _).
      cbn [viewCheck view_requiredDependencies] in Hreq.
      rewrite (extends_objectAt σ σ1) by (done || apply Vσ).
      by rewrite Hreq, copyOf_idemp. }
    split.
    { intros name Hname. rewrite Hcopy. unfold engineView.
      rewrite lookup_withoutIgnored. by rewrite decide_True. }
    split.
    { intros acc. rewrite engineStep_run by done. fold σ2. by rewrite Hcopy. }
    split; [by intros l Hl; apply extends_objectAt|]. split; [done|].
    apply Hkeep. by etrans.
  - intros acc.
    destruct (engineLoop_run checkEngineVersions engineNoDev engineIgnores acc checks σ V)
      as (σ' & E & _ & _ & R).
    eexists σ', _. split; [exact R|]. by apply Hkeep.
Qed.

Lemma C6_witness :
  ∃ σ2 copy,
    engineDependencies false ["r"] sampleRoot sampleStore = (σ2, inr copy) ∧
    copy ≠ dependencies sampleRoot ∧ copy ≠ requiredDependencies sampleRoot ∧
    objectAt σ2 copy = ∅ ∧
    (∀ acc,
       engineStep sampleEngines false ["r"] acc sampleRoot sampleStore
       = (σ2, inr (addLines acc sampleRoot
                     (sampleEngines ∅ ∅ sampleInstalled ∅)))) ∧
    objectAt σ2 (requiredDependencies sampleRoot) = {["r" := "1.0.0"]} ∧
    objectAt σ2 (dependencies sampleRoot) = {["r" := "1.0.0"]}.
Proof.
  assert (Hbuild : buildChecks sampleDisk inOrder "." true emptyHeap
                   = (sampleStore, inr [sampleRoot; sampleA; sampleB]))
    by (vm_compute; reflexivity).
  destruct (proj1 (C6_engine_check_keeps_contexts sampleEngines sampleDisk inOrder
                     "." true emptyHeap sampleStore [sampleRoot; sampleA; sampleB]
                     false ["r"] Hbuild)
              sampleRoot sampleStore)
    as (σ2 & copy & Hrun & _ & Hd & Hr & Hcopy & _ & _ & Hstep & _ & _ & Hkeep).
  - left.
  - reflexivity.
  - assert (Hempty : objectAt σ2 copy = ∅)
      by (rewrite Hcopy; vm_compute; reflexivity).
    exists σ2, copy. split; [exact Hrun|]. split; [exact Hd|]. split; [exact Hr|].
    split; [exact Hempty|]. split.
    { intros acc. rewrite Hstep, Hempty. do 3 f_equal; vm_compute; reflexivity. }
    destruct (Hkeep sampleRoot) as (Hkd & Hkr & _); [left|].
    split; [rewrite Hkr|rewrite Hkd]; vm_compute; reflexivity.
Defined.

(** C6 as stated fails under [engineNoDev] for a manifest whose
    [dependencies] list the name [__proto__]: nothing is ignored, and the
    object that the engine evaluator is given is not a copy of the
    context's [dependencies], it lacks [__proto__]. *)
Lemma C6_counterexample :
  buildChecks protoDisk (mkSchedule true []) "." true emptyHeap
    = (protoStore, inr [protoRoot]) ∧
  objectAt protoStore (dependencies protoRoot)
    = {["p" := "^1.0.0"; "__proto__" := "^1.0.0"]} ∧
  ∃ σ2 copy,
    engineDependencies true [] protoRoot protoStore = (σ2, inr copy) ∧
    objectAt σ2 copy = {["p" := "^1.0.0"]} ∧
    objectAt σ2 copy ≠ withoutIgnored [] (objectAt protoStore (dependencies protoRoot)).
Proof.
  split; [vm_compute; reflexivity|]. split; [vm_compute; reflexivity|].
  eexists _, _. split; [vm_compute; reflexivity|].
  split; [vm_compute; reflexivity|].
  vm_compute. discriminate.
Qed.

(** C7, as amended.  The context of a workspace member whose manifest has
    no [engines] field (no [dependencies] field) gets the root manifest's
    whole [engines] ([dependencies]), or the empty mapping when the root
    has none either.  When the member's manifest has the field, also as an
    empty mapping, the context gets the member's own, whatever the root's
    is. *)
Theorem C7_member_fallback disk schedule path traverse σ0 σ checks c sp :
  buildChecks disk schedule path traverse σ0 = (σ, inr checks) →
  c ∈ checks → subpath c = Some sp →
  ∃ main sub,
    disk_readPackage disk path = inr main ∧
    disk_readPackage disk sp = inr sub ∧
    (pkg_engines sub = None →
     objectAt σ (engines c) = default ∅ (pkg_engines main)) ∧
    (∀ own, pkg_engines sub = Some own → objectAt σ (engines c) = own) ∧
    (pkg_dependencies sub = None →
     objectAt σ (dependencies c) = default ∅ (pkg_dependencies main)) ∧
    (∀ own, pkg_dependencies sub = Some own → objectAt σ (dependencies c) = own).
Proof.
  intros Hrun Hc Hsp.
  destruct (buildChecks_member disk schedule path traverse σ0 σ checks c sp Hrun Hc Hsp)
    as (main & mainInst & sub & w & c0 & Hm & _ & _ & _ & Hsub & _ & _ & _ & _ & Hv).
  exists main, sub. do 2 (split; [done|]).
  apply (f_equal view_engines) in Hv as He.
  apply (f_equal view_dependencies) in Hv as Hd.
  simpl in He, Hd. rewrite He, Hd.
  split; [by intros ->|]. split; [by intros own ->|].
  split; [by intros ->|]. by intros own ->.
Qed.

Lemma C7_witness :
  ∃ main sub,
    disk_readPackage emptyFieldsDisk "." = inr main ∧
    disk_readPackage emptyFieldsDisk "./a" = inr sub ∧
    (pkg_engines sub = None →
     objectAt emptyFieldsStore (engines emptyFieldsA) = default ∅ (pkg_engines main)) ∧
    (∀ own, pkg_engines sub = Some own →
            objectAt emptyFieldsStore (engines emptyFieldsA) = own) ∧
    (pkg_dependencies sub = None →
     objectAt emptyFieldsStore (dependencies emptyFieldsA)
     = default ∅ (pkg_dependencies main)) ∧
    (∀ own, pkg_dependencies sub = Some own →
            objectAt emptyFieldsStore (dependencies emptyFieldsA) = own).
Proof.
  apply (C7_member_fallback emptyFieldsDisk (mkSchedule true [0]) "." true emptyHeap
           emptyFieldsStore [emptyFieldsRoot; emptyFieldsA] emptyFieldsA "./a").
  - vm_compute. reflexivity.
  - right. left.
  - reflexivity.
Defined.

(** C7 as stated fails for a field that is present and empty: the member
    [a] declares [engines: {}], the root declares a [node] range, and the
    member's context has the empty mapping, not the root's. *)
Lemma C7_counterexample :
  buildChecks emptyFieldsDisk (mkSchedule true [0]) "." true emptyHeap
    = (emptyFieldsStore, inr [emptyFieldsRoot; emptyFieldsA]) ∧
  subpath emptyFieldsA = Some "./a" ∧
  (∃ sub, disk_readPackage emptyFieldsDisk "./a" = inr sub ∧ pkg_engines sub = Some ∅) ∧
  (∃ main, disk_readPackage emptyFieldsDisk "." = inr main ∧
           pkg_engines main = Some {["node" := ">=18.0.0"]}) ∧
  objectAt emptyFieldsStore (engines emptyFieldsA) = ∅ ∧
  objectAt emptyFieldsStore (engines emptyFieldsA) ≠ {["node" := ">=18.0.0"]}.
Proof.
  split; [vm_compute; reflexivity|]. split; [reflexivity|].
  split; [eexists; split; vm_compute; reflexivity|].
  split; [eexists; split; vm_compute; reflexivity|].
  split; [vm_compute; reflexivity|].
  vm_compute. discriminate.
Qed.

(** C8.  The snapshot of a member's context is the member's own snapshot
    (empty when it cannot be read) laid over the root snapshot: a name in
    the member's snapshot has the member's entry, any other name has the
    root's entry, if any.  It is a Map of its own: the Map of the root
    context is another one and still holds the root snapshot. *)
Theorem C8_member_snapshot_overlay disk schedule path traverse σ0 σ checks c sp :
  buildChecks disk schedule path traverse σ0 = (σ, inr checks) →
  c ∈ checks → subpath c = Some sp →
  ∃ mainInst c0,
    disk_listInstalled disk path = inr mainInst ∧
    mapAt σ (installedDependencies c) = installedOrEmpty disk sp ∪ mainInst ∧
    (∀ subInst, disk_listInstalled disk sp = inr subInst →
       mapAt σ (installedDependencies c) = subInst ∪ mainInst) ∧
    (∀ name entry, installedOrEmpty disk sp !! name = Some entry →
       mapAt σ (installedDependencies c) !! name = Some entry) ∧
    (∀ name, installedOrEmpty disk sp !! name = None →
       mapAt σ (installedDependencies c) !! name = mainInst !! name) ∧
    c0 ∈ checks ∧ subpath c0 = None ∧
    installedDependencies c ≠ installedDependencies c0 ∧
    mapAt σ (installedDependencies c0) = mainInst.
Proof.
  intros Hrun Hc Hsp.
  destruct (buildChecks_member disk schedule path traverse σ0 σ checks c sp Hrun Hc Hsp)
    as (main & mainInst & sub & w & c0 & Hm & Hmi & _ & _ & _ & _ & Hc0 & Hsp0 & Hne & Hv).
  destruct (buildChecks_root disk schedule path traverse σ0 σ checks c0 Hrun Hc0 Hsp0)
    as (main' & mainInst' & _ & Hmi' & _ & Hv0).
  assert (mainInst' = mainInst) as -> by congruence.
  apply (f_equal view_installedDependencies) in Hv, Hv0. simpl in Hv, Hv0.
  exists mainInst, c0. split; [done|]. split; [done|]. split.
  { intros subInst Hs. unfold installedOrEmpty in Hv. by rewrite Hs in Hv. }
  split.
  { intros name entry Hname. rewrite Hv. by apply lookup_union_Some_l. }
  split.
  { intros name Hname. rewrite Hv. by apply lookup_union_r. }
  done.
Qed.

Lemma C8_witness :
  ∃ mainInst c0,
    disk_listInstalled overlayDisk "." = inr mainInst ∧
    mapAt overlayStore (installedDependencies overlayA)
      = installedOrEmpty overlayDisk "./a" ∪ mainInst ∧
    (∀ subInst, disk_listInstalled overlayDisk "./a" = inr subInst →
       mapAt overlayStore (installedDependencies overlayA) = subInst ∪ mainInst) ∧
    (∀ name entry, installedOrEmpty overlayDisk "./a" !! name = Some entry →
       mapAt overlayStore (installedDependencies overlayA) !! name = Some entry) ∧
    (∀ name, installedOrEmpty overlayDisk "./a" !! name = None →
       mapAt overlayStore (installedDependencies overlayA) !! name = mainInst !! name) ∧
    c0 ∈ [overlayRoot; overlayA] ∧ subpath c0 = None ∧
    installedDependencies overlayA ≠ installedDependencies c0 ∧
    mapAt overlayStore (installedDependencies c0) = mainInst.
Proof.
  apply (C8_member_snapshot_overlay overlayDisk (mkSchedule true [0]) "." true emptyHeap
           overlayStore [overlayRoot; overlayA] overlayA "./a").
  - vm_compute. reflexivity.
  - right. left.
  - reflexivity.
Defined.

(** C9 fails on the sample: the same options and the same disk give the
    error lines in two different orders, depending on which member's fetch
    settles first. *)
Lemma C9_result_depends_on_settle_order :
  ∃ σ1 result1 σ2 result2,
    installedCheck sampleVersions sampleEngines sampleDisk inOrder
      (Some versionOnly) emptyHeap = (σ1, inr result1) ∧
    installedCheck sampleVersions sampleEngines sampleDisk reversed
      (Some versionOnly) emptyHeap = (σ2, inr result2) ∧
    errors result1
    = [versionLine "r"; "[./a] " +:+ versionLine "x"; "[./b] " +:+ versionLine "y"] ∧
    errors result2
    = [versionLine "r"; "[./b] " +:+ versionLine "y"; "[./a] " +:+ versionLine "x"] ∧
    errors result1 ≠ errors result2.
Proof.
  eexists _, _, _, _. split; [vm_compute; reflexivity|].
  split; [vm_compute; reflexivity|]. by repeat split.
Qed.

(** C10, as amended.  For the root and for every member: a name other than
    [__proto__] that the manifest lists in both [dependencies] and
    [devDependencies] has the [devDependencies] range in the context's
    required set, and so in the required set that [checkPackageVersions]
    is called with and, unless [engineNoDev] is set or the name is
    ignored, in the dependencies that [checkEngineVersions] is called
    with.  The name [__proto__] is in no required set. *)
Theorem C10_dev_range_wins checkPackageVersions checkEngineVersions disk schedule
    path traverse σ0 σ checks c :
  buildChecks disk schedule path traverse σ0 = (σ, inr checks) →
  c ∈ checks →
  ∃ pkg,
    disk_readPackage disk (default path (subpath c)) = inr pkg ∧
    objectAt σ (requiredDependencies c) !! "__proto__" = None ∧
    ∀ deps devDeps name direct dev,
      pkg_dependencies pkg = Some deps → pkg_devDependencies pkg = Some devDeps →
      deps !! name = Some direct → devDeps !! name = Some dev →
      name ≠ "__proto__" →
      objectAt σ (requiredDependencies c) !! name = Some dev ∧
      ∀ σ1 acc, extends σ σ1 →
        (∃ required installed optional,
           versionStep checkPackageVersions acc c σ1
           = (σ1, inr (addLines acc c
                         (checkPackageVersions required installed optional))) ∧
           required !! name = Some dev) ∧
        ∀ engineIgnores, name ∉ engineIgnores →
          ∃ σ2 engs dependencies installed optional,
            engineStep checkEngineVersions false engineIgnores acc c σ1
            = (σ2, inr (addLines acc c
                          (checkEngineVersions engs dependencies installed optional))) ∧
            dependencies !! name = Some dev.
Proof.
  intros Hrun Hc.
  destruct (context_dependency_sets disk schedule path traverse σ0 σ checks c Hrun Hc)
    as (pkg & Hpkg & V & Hreq & _).
  cbn [viewCheck view_requiredDependencies] in Hreq.
  exists pkg. split; [done|].
  split; [by rewrite Hreq, lookup_copyOf, decide_True|].
  intros deps devDeps name direct dev Hd Hdd Hname Hdev Hne.
  assert (Hlook : objectAt σ (requiredDependencies c) !! name = Some dev).
  { rewrite Hreq, lookup_copyOf, decide_False by done.
    rewrite Hd, Hdd. simpl. by apply lookup_union_Some_l. }
  split; [done|]. intros σ1 acc E1.
  assert (V1 : validCheck σ1 c) by (by eapply extends_validCheck).
  pose proof (extends_viewCheck σ σ1 c E1 V) as Hview.
  apply (f_equal view_requiredDependencies) in Hview as Hr. simpl in Hr.
  split.
  - exists (objectAt σ1 (requiredDependencies c)), (mapAt σ1 (installedDependencies c)),
      (objectAt σ1 (optionalDependencies c)).
    split; [reflexivity|]. by rewrite Hr.
  - intros engineIgnores Hni. eexists _, _, _, _, _.
    split; [by apply engineStep_run|].
    unfold engineView. rewrite lookup_withoutIgnored, decide_False by done.
    rewrite lookup_copyOf, decide_False by done.
    by rewrite Hview.
Qed.

Lemma C10_witness :
  ∃ pkg,
    disk_readPackage overlayDisk "./a" = inr pkg ∧
    objectAt overlayStore (requiredDependencies overlayA) !! "__proto__" = None ∧
    ∀ deps devDeps name direct dev,
      pkg_dependencies pkg = Some deps → pkg_devDependencies pkg = Some devDeps →
      deps !! name = Some direct → devDeps !! name = Some dev →
      name ≠ "__proto__" →
      objectAt overlayStore (requiredDependencies overlayA) !! name = Some dev ∧
      ∀ σ1 acc, extends overlayStore σ1 →
        (∃ required installed optional,
           versionStep sampleVersions acc overlayA σ1
           = (σ1, inr (addLines acc overlayA
                         (sampleVersions required installed optional))) ∧
           required !! name = Some dev) ∧
        ∀ engineIgnores, name ∉ engineIgnores →
          ∃ σ2 engs dependencies installed optional,
            engineStep sampleEngines false engineIgnores acc overlayA σ1
            = (σ2, inr (addLines acc overlayA
                          (sampleEngines engs dependencies installed optional))) ∧
            dependencies !! name = Some dev.
Proof.
  apply (C10_dev_range_wins sampleVersions sampleEngines overlayDisk
           (mkSchedule true [0]) "." true emptyHeap
           overlayStore [overlayRoot; overlayA] overlayA).
  - vm_compute. reflexivity.
  - right. left.
Defined.

(** C10 as stated fails for the name [__proto__]: the manifest lists it in
    both [dependencies] and [devDependencies], and the required set that
    the version evaluator is handed has no range for it, neither the
    [devDependencies] one nor the other. *)
Lemma C10_counterexample :
  buildChecks protoDisk (mkSchedule true []) "." true emptyHeap
    = (protoStore, inr [protoRoot]) ∧
  disk_readPackage protoDisk "." = inr protoMain ∧
  (∃ deps devDeps,
     pkg_dependencies protoMain = Some deps ∧
     pkg_devDependencies protoMain = Some devDeps ∧
     deps !! "__proto__" = Some "^1.0.0" ∧
     devDeps !! "__proto__" = Some "^2.0.0") ∧
  versionArguments protoRoot protoStore
    = (protoStore,
       inr ({["p" := "^2.0.0"; "d" := "^1.0.0"]}, sampleInstalled, {["o" := "^1.0.0"]})) ∧
  objectAt protoStore (requiredDependencies protoRoot) !! "__proto__" = None ∧
  objectAt protoStore (requiredDependencies protoRoot) !! "__proto__" ≠ Some "^2.0.0".
Proof.
  split; [vm_compute; reflexivity|]. split; [reflexivity|].
  split; [eexists _, _; by repeat split|].
  split; [vm_compute; reflexivity|].
  split; [vm_compute; reflexivity|].
  vm_compute. discriminate.
Qed.

(** * Further properties of [installedCheck] *)

(** ** Computations that start no read *)

Lemma quiet_readless {A} (m : M A) : quiet m → readless m.
Proof. intros H σ. destruct (H σ) as (σ' & x & -> & Hio). done. Qed.

Lemma quiet_ret {A} (x : A) : quiet (mret x).
Proof. intros σ. by exists σ, x. Qed.

Lemma quiet_bind {A B} (m : M A) (f : A → M B) :
  quiet m → (∀ x, quiet (f x)) → quiet (m ≫= f).
Proof.
  intros Hm Hf σ. destruct (Hm σ) as (σ1 & x & R1 & I1).
  destruct (Hf x σ1) as (σ2 & y & R2 & I2).
  exists σ2, y. split; [by erewrite bind_inr|congruence].
Qed.

Lemma quiet_foldM {A B} (f : B → A → M B) (b : B) (l : list A) :
  (∀ b x, quiet (f b x)) → quiet (foldM f b l).
Proof.
  intros Hf. revert b. induction l as [|x l IH]; intros b; simpl.
  - apply quiet_ret.
  - apply quiet_bind; [apply Hf|apply IH].
Qed.

Lemma quiet_mapM {A B} (f : A → M B) (l : list A) :
  (∀ x, quiet (f x)) → quiet (mapM f l).
Proof.
  intros Hf. induction l as [|x l IH].
  - apply (quiet_ret []).
  - rewrite mapM_cons. apply quiet_bind; [apply Hf|]. intros y.
    apply quiet_bind; [apply IH|]. intros k. apply quiet_ret.
Qed.

Lemma quiet_newObject o : quiet (newObject o).
Proof. intros σ. by eexists _, _. Qed.

Lemma quiet_getObject l : quiet (getObject l).
Proof. intros σ. by eexists _, _. Qed.

Lemma quiet_setObject l o : quiet (setObject l o).
Proof. intros σ. by eexists _, _. Qed.

Lemma quiet_newMapObject m : quiet (newMapObject m).
Proof. intros σ. by eexists _, _. Qed.

Lemma quiet_getMap l : quiet (getMap l).
Proof. intros σ. by eexists _, _. Qed.

Lemma quiet_setMap l m : quiet (setMap l m).
Proof. intros σ. by eexists _, _. Qed.

Create HintDb quiet.

#[export] Hint Resolve quiet_ret quiet_newObject quiet_getObject quiet_setObject
  quiet_newMapObject quiet_getMap quiet_setMap : quiet.

(** Decomposes a computation along its binds and loops. *)
Ltac quiet_step :=
  first
    [ solve [eauto with quiet]
    | apply quiet_bind
    | apply quiet_foldM
    | apply quiet_mapM ].

Ltac solve_quiet := repeat (intros; try quiet_step).

Lemma quiet_setProperty l key value : quiet (setProperty l key value).
Proof.
  unfold setProperty. apply quiet_bind; [solve_quiet|].
  intros o. case_decide; solve_quiet.
Qed.

#[export] Hint Resolve quiet_setProperty : quiet.

Lemma quiet_Object_assign target sources : quiet (Object_assign target sources).
Proof.
  unfold Object_assign. apply quiet_bind; [|solve_quiet].
  apply quiet_foldM. intros _ source. apply quiet_bind; [solve_quiet|].
  intros s. apply quiet_foldM. intros _ kv. apply quiet_setProperty.
Qed.

Lemma quiet_deleteProperty l name : quiet (deleteProperty l name).
Proof. unfold deleteProperty. solve_quiet. Qed.

Lemma quiet_orEmpty x : quiet (orEmpty x).
Proof. destruct x; simpl; solve_quiet. Qed.

#[export] Hint Resolve quiet_Object_assign quiet_deleteProperty quiet_orEmpty : quiet.

Lemma quiet_assignDefaults fields : quiet (assignDefaults fields).
Proof. unfold assignDefaults. solve_quiet. Qed.

Lemma quiet_orElseEmpty x y : quiet (orElseEmpty x y).
Proof. destruct x; simpl; solve_quiet. Qed.

Lemma quiet_Map_copy m : quiet (Map_copy m).
Proof. unfold Map_copy. solve_quiet. Qed.

Lemma quiet_Map_set m key value : quiet (Map_set m key value).
Proof. unfold Map_set. solve_quiet. Qed.

#[export] Hint Resolve quiet_assignDefaults quiet_orElseEmpty quiet_Map_copy
  quiet_Map_set : quiet.

Lemma quiet_Map_forEach m f : (∀ value key, quiet (f value key)) → quiet (Map_forEach m f).
Proof. intros Hf. unfold Map_forEach. solve_quiet. Qed.

Lemma quiet_allocField f : quiet (allocField f).
Proof. destruct f; simpl; solve_quiet. Qed.

#[export] Hint Resolve quiet_allocField : quiet.

Lemma quiet_allocPackage p : quiet (allocPackage p).
Proof. unfold allocPackage. solve_quiet. Qed.

Lemma quiet_mainCheck main mainInst : quiet (mainCheck main mainInst).
Proof. unfold mainCheck. solve_quiet. Qed.

Lemma quiet_workspaceCheck main mainInst sp sub subInst :
  quiet (workspaceCheck main mainInst sp sub subInst).
Proof.
  unfold workspaceCheck. apply quiet_bind; [solve_quiet|]. intros inst.
  apply quiet_bind; [apply quiet_Map_forEach; solve_quiet|]. solve_quiet.
Qed.

#[export] Hint Resolve quiet_allocPackage quiet_mainCheck quiet_workspaceCheck : quiet.

Lemma readless_throw {A} (e : JsError) : readless (throw (A:=A) e).
Proof. by intros σ. Qed.

Lemma readless_await {A} (p : Promise A) : readless (await p).
Proof. by destruct p; intros σ. Qed.

Lemma readless_bind {A B} (m : M A) (f : A → M B) :
  readless m → (∀ x, readless (f x)) → readless (m ≫= f).
Proof.
  intros Hm Hf σ. specialize (Hm σ). unfold mbind, M_bind.
  destruct (m σ) as [σ1 [e|x]]; simpl in *; [done|].
  by rewrite Hf.
Qed.

Lemma readless_foldM {A B} (f : B → A → M B) (b : B) (l : list A) :
  (∀ b x, readless (f b x)) → readless (foldM f b l).
Proof.
  intros Hf. revert b. induction l as [|x l IH]; intros b; simpl.
  - by intros σ.
  - apply readless_bind; [apply Hf|apply IH].
Qed.

(** Settling a member's fetch starts no read: the reads were started when
    the fetch was. *)
Lemma readless_settleWorkspace main mainInst checks f :
  readless (settleWorkspace main mainInst checks f).
Proof.
  unfold settleWorkspace. apply readless_bind; [apply readless_await|].
  intros [sub subInst]. apply quiet_readless. solve_quiet.
Qed.

(** ** The two loops always return *)

Section loops_return.

Variable checkPackageVersions : Obj → InstalledMap → Obj → EvaluatorResult.
Variable checkEngineVersions : Obj → Obj → InstalledMap → Obj → EvaluatorResult.

Lemma quiet_versionStep acc check :
  quiet (versionStep checkPackageVersions acc check).
Proof.
  unfold versionStep, versionArguments. apply quiet_bind; [solve_quiet|].
  intros [[required installed] optional]. solve_quiet.
Qed.

Lemma quiet_engineStep engineNoDev engineIgnores acc check :
  quiet (engineStep checkEngineVersions engineNoDev engineIgnores acc check).
Proof.
  unfold engineStep, engineArguments, engineDependencies.
  apply quiet_bind; [solve_quiet|].
  intros [[[engs deps] installed] optional]. solve_quiet.
Qed.

Lemma quiet_runChecks engineCheck versionCheck engineNoDev engineIgnores checks :
  quiet (runChecks checkPackageVersions checkEngineVersions
           engineCheck versionCheck engineNoDev engineIgnores checks).
Proof.
  unfold runChecks. apply quiet_bind.
  { destruct versionCheck; [|solve_quiet].
    apply quiet_foldM. intros. apply quiet_versionStep. }
  intros acc. apply quiet_bind; [|solve_quiet].
  destruct engineCheck; [|solve_quiet].
  apply quiet_foldM. intros. apply quiet_engineStep.
Qed.

End loops_return.

(** ** The reads of a run *)

Lemma workspaceChecks_reads disk schedule path traverse main mainInst checks σ :
  io (workspaceChecks disk schedule path traverse main mainInst checks σ).1
  = io σ ++ fetchEvents path
              match (if traverse then pkg_workspaces main else None) with
              | Some workspaces => filter (λ w, w ≠ ".") workspaces
              | None => []
              end.
Proof.
  unfold workspaceChecks.
  destruct (if traverse then pkg_workspaces main else None) as [ws|].
  - erewrite bind_inr; [|apply mapM_fetchWorkspace_run].
    rewrite readless_foldM; [done|].
    intros. apply readless_settleWorkspace.
  - simpl. unfold fetchEvents. simpl. by rewrite app_nil_r.
Qed.

Lemma buildChecks_reads disk schedule path traverse σ :
  io (buildChecks disk schedule path traverse σ).1
  = io σ ++ readsOf disk path traverse.
Proof.
  unfold buildChecks, readsOf.
  erewrite bind_inr; [|reflexivity]. erewrite bind_inr; [|reflexivity].
  set (σ2 := mkHeap _ _ _).
  assert (I2 : io σ2 = io σ ++ [ReadPackage path; ListInstalled path]).
  { unfold σ2. simpl. by rewrite <- app_assoc. }
  destruct (disk_readPackage disk path) as [e|main],
    (disk_listInstalled disk path) as [e'|mainInst];
    try (erewrite bind_inl; [|reflexivity]; simpl; by rewrite <- app_assoc).
  erewrite bind_inr; [|reflexivity]. cbv beta iota.
  destruct (allocPackage_spec main σ2) as (σ3 & main' & R3 & _ & _ & _ & C3).
  pose proof (quiet_readless _ (quiet_allocPackage main) σ2) as I3.
  rewrite R3 in I3. change (io σ3 = io σ2) in I3.
  erewrite bind_inr; [|exact R3]. erewrite bind_inr; [|reflexivity].
  set (σ4 := mkHeap _ _ _).
  destruct (quiet_mainCheck main' (length (maps σ3)) σ4) as (σ5 & c & R5 & I5).
  erewrite bind_inr; [|exact R5].
  rewrite workspaceChecks_reads, I5.
  change (io σ4) with (io σ3). rewrite I3, I2.
  rewrite <- app_assoc. simpl. do 3 f_equal. unfold members.
  by rewrite <- C3.
Qed.

(** The reads of a whole run. *)
Lemma installedCheck_reads checkPackageVersions checkEngineVersions disk schedule
    options σ :
  io (installedCheck checkPackageVersions checkEngineVersions disk schedule
        (Some options) σ).1
  = io σ ++
    (if default false (opt_engineCheck options) || default false (opt_versionCheck options)
     then readsOf disk (default "." (opt_path options))
            (default true (opt_traverseWorkspaces options))
     else []).
Proof.
  unfold installedCheck.
  assert (Hrun : ∀ engineCheck versionCheck,
    io ((buildChecks disk schedule (default "." (opt_path options))
           (default true (opt_traverseWorkspaces options))
         ≫= runChecks checkPackageVersions checkEngineVersions engineCheck versionCheck
              (default false (opt_engineNoDev options))
              (default [] (opt_engineIgnores options))) σ).1
    = io σ ++ readsOf disk (default "." (opt_path options))
                (default true (opt_traverseWorkspaces options))).
  { intros engineCheck versionCheck. rewrite <- buildChecks_reads with (schedule := schedule).
    unfold mbind, M_bind.
    destruct (buildChecks _ _ _ _ σ) as [σ1 [e|checks]]; [done|].
    apply (quiet_readless _ (quiet_runChecks _ _ _ _ _ _ _)). }
  destruct (default false (opt_engineCheck options)),
    (default false (opt_versionCheck options)); simpl negb; simpl andb; simpl orb;
    try apply Hrun.
  simpl. by rewrite app_nil_r.
Qed.


(** X1.  The reads that a run starts are the two root reads and, when both
    succeed, the manifest read and the snapshot read of every workspace
    entry other than [.], entry by entry in the declared order; a run in
    which no check is enabled starts none.  This does not depend on the
    order in which the reads settle, nor on whether a member's read fails
    (the members' reads are all started before any of them settles), nor
    on what the evaluators return: the evaluation starts no read. *)
Theorem X1_reads_started checkPackageVersions checkEngineVersions disk schedule
    options σ :
  io (installedCheck checkPackageVersions checkEngineVersions disk schedule
        (Some options) σ).1
  = io σ ++
    (if default false (opt_engineCheck options) || default false (opt_versionCheck options)
     then readsOf disk (default "." (opt_path options))
            (default true (opt_traverseWorkspaces options))
     else [])
  ∧ ∀ checkPackageVersions' checkEngineVersions' schedule',
      io (installedCheck checkPackageVersions' checkEngineVersions' disk schedule'
            (Some options) σ).1
      = io (installedCheck checkPackageVersions checkEngineVersions disk schedule
              (Some options) σ).1.
Proof.
  split; [apply installedCheck_reads|].
  intros. by rewrite !installedCheck_reads.
Qed.

(** X2.  In a run with a check enabled, a root manifest that cannot be
    read aborts the run with [Failed to read package.json], and a root
    snapshot that cannot be read with [Failed to list installed modules],
    each with the reader's error as its cause; when both reads fail, the
    error is the one of the read that fails first.  In each case only the
    two root reads have been started: no workspace member is read. *)
Theorem X2_root_read_failures checkPackageVersions checkEngineVersions disk schedule
    options σ :
  default false (opt_engineCheck options) || default false (opt_versionCheck options)
    = true →
  (∀ cause snapshot,
     disk_readPackage disk (default "." (opt_path options)) = inl cause →
     disk_listInstalled disk (default "." (opt_path options)) = inr snapshot →
     (installedCheck checkPackageVersions checkEngineVersions disk schedule
        (Some options) σ).2
     = inl (ErrorWithCause "Failed to read package.json" cause)) ∧
  (∀ main cause,
     disk_readPackage disk (default "." (opt_path options)) = inr main →
     disk_listInstalled disk (default "." (opt_path options)) = inl cause →
     (installedCheck checkPackageVersions checkEngineVersions disk schedule
        (Some options) σ).2
     = inl (ErrorWithCause "Failed to list installed modules" cause)) ∧
  (∀ cause1 cause2,
     disk_readPackage disk (default "." (opt_path options)) = inl cause1 →
     disk_listInstalled disk (default "." (opt_path options)) = inl cause2 →
     (installedCheck checkPackageVersions checkEngineVersions disk schedule
        (Some options) σ).2
     = inl (if root_manifest_first schedule
            then ErrorWithCause "Failed to read package.json" cause1
            else ErrorWithCause "Failed to list installed modules" cause2)) ∧
  ((∀ main, disk_readPackage disk (default "." (opt_path options)) ≠ inr main) ∨
   (∀ snapshot, disk_listInstalled disk (default "." (opt_path options)) ≠ inr snapshot) →
   io (installedCheck checkPackageVersions checkEngineVersions disk schedule
         (Some options) σ).1
   = io σ ++ [ReadPackage (default "." (opt_path options));
              ListInstalled (default "." (opt_path options))]).
Proof.
  intros Hen.
  destruct (installedCheck_spec checkPackageVersions checkEngineVersions disk schedule
              options σ Hen) as (σ' & _ & Hrun).
  pose proof (installedCheck_reads checkPackageVersions checkEngineVersions disk schedule
                options σ) as Hio.
  rewrite Hen in Hio. rewrite Hrun. simpl.
  unfold outcome, contextViews, mainFetch. unfold readsOf in Hio.
  split; [|split; [|split]].
  - intros cause snapshot Hm Hs. by rewrite Hm, Hs.
  - intros main cause Hm Hs. by rewrite Hm, Hs.
  - intros cause1 cause2 Hm Hs. rewrite Hm, Hs. simpl.
    by destruct (root_manifest_first schedule).
  - intros Hfail. rewrite Hrun in Hio. simpl in Hio. rewrite Hio.
    destruct (disk_readPackage disk _) as [e|main]; [done|].
    destruct (disk_listInstalled disk _) as [e|snapshot]; [done|].
    destruct Hfail as [Hfail|Hfail]; exfalso; by eapply Hfail.
Qed.

Lemma X2_witness :
  (installedCheck sampleVersions sampleEngines noManifestDisk inOrder
     (Some versionOnly) emptyHeap).2
  = inl (ErrorWithCause "Failed to read package.json" (Error "ENOENT")) ∧
  (installedCheck sampleVersions sampleEngines unreadableDisk reversed
     (Some versionOnly) emptyHeap).2
  = inl (ErrorWithCause "Failed to read package.json" (Error "ENOENT")) ∧
  io (installedCheck sampleVersions sampleEngines unreadableDisk reversed
        (Some versionOnly) emptyHeap).1
  = [ReadPackage "."; ListInstalled "."].
Proof.
  destruct (X2_root_read_failures sampleVersions sampleEngines noManifestDisk inOrder
              versionOnly emptyHeap eq_refl) as (Hmanifest & _ & _ & _).
  destruct (X2_root_read_failures sampleVersions sampleEngines unreadableDisk reversed
              versionOnly emptyHeap eq_refl) as (_ & _ & Hboth & Hreads).
  split; [exact (Hmanifest (Error "ENOENT") sampleInstalled eq_refl eq_refl)|].
  split; [exact (Hboth (Error "ENOENT") (Error "EACCES") eq_refl eq_refl)|].
  apply Hreads. by left.
Defined.

(** A member whose fetch settles is a traversed member. *)
Lemma elem_of_settled schedule traverse main w :
  w ∈ settled schedule traverse main → w ∈ members traverse main.
Proof.
  unfold settled. intros (i & _ & Hi)%list_elem_of_omap.
  by eapply list_elem_of_lookup_2.
Qed.



(** ** Workspace entries *)

Lemma append_ne_self (s t : string) : t ≠ "" → s +:+ t ≠ s.
Proof.
  intros Ht. induction s as [|a s IH]; simpl; [done|].
  intros [= H]. by apply IH.
Qed.

Lemma subpath_inj path w w' :
  path +:+ "/" +:+ w = path +:+ "/" +:+ w' → w = w'.
Proof. intros H%(inj (String.app path)). by injection H. Qed.

Lemma elem_of_fetchEvents path ws ev :
  ev ∈ fetchEvents path ws ↔
  ∃ w, w ∈ ws ∧
    (ev = ReadPackage (path +:+ "/" +:+ w) ∨ ev = ListInstalled (path +:+ "/" +:+ w)).
Proof.
  unfold fetchEvents. rewrite list_elem_of_bind. split.
  - intros (w & Hev & Hw). exists w. split; [done|].
    apply elem_of_cons in Hev as [->|Hev]; [by left|].
    apply list_elem_of_singleton in Hev as ->. by right.
  - intros (w & Hw & [->| ->]); exists w; (split; [|done]); [left|right; left].
Qed.

Lemma dot_not_member traverse main : "." ∉ members traverse main.
Proof.
  unfold members. destruct (if traverse then pkg_workspaces main else None) as [ws|].
  - by intros [? _]%list_elem_of_filter.
  - apply not_elem_of_nil.
Qed.

(** X4.  The workspace entry [.] stands for the root and is skipped: no
    read is started at [<path>/.], whatever the manifest declares, and no
    context of a run has the subpath [<path>/.]. *)
Theorem X4_dot_entry_skipped disk schedule path traverse σ0 :
  (ReadPackage (path +:+ "/" +:+ ".") ∉ readsOf disk path traverse) ∧
  (ListInstalled (path +:+ "/" +:+ ".") ∉ readsOf disk path traverse) ∧
  io (buildChecks disk schedule path traverse σ0).1
    = io σ0 ++ readsOf disk path traverse ∧
  ∀ σ checks c,
    buildChecks disk schedule path traverse σ0 = (σ, inr checks) →
    c ∈ checks → subpath c ≠ Some (path +:+ "/" +:+ ".").
Proof.
  assert (Hev : ∀ ev,
    ev = ReadPackage (path +:+ "/" +:+ ".") ∨ ev = ListInstalled (path +:+ "/" +:+ ".") →
    ev ∉ readsOf disk path traverse).
  { intros ev Hev. unfold readsOf. intros Hin.
    apply elem_of_cons in Hin as [->|Hin].
    { destruct Hev as [[= H]|[=]]. by apply (append_ne_self path "/."). }
    apply elem_of_cons in Hin as [->|Hin].
    { destruct Hev as [[=]|[= H]]. by apply (append_ne_self path "/."). }
    destruct (disk_readPackage disk path) as [e|main]; [by apply elem_of_nil in Hin|].
    destruct (disk_listInstalled disk path) as [e|mi]; [by apply elem_of_nil in Hin|].
    apply elem_of_fetchEvents in Hin as (w & Hw & Hw').
    assert (w = ".") as ->.
    { destruct Hev as [->| ->], Hw' as [[= H]|[= H]]; by apply subpath_inj in H. }
    by apply dot_not_member in Hw. }
  split; [by apply Hev; left|]. split; [by apply Hev; right|].
  split; [apply buildChecks_reads|].
  intros σ checks c Hrun Hc Hsp.
  destruct (buildChecks_member disk schedule path traverse σ0 σ checks c _ Hrun Hc Hsp)
    as (main & _ & _ & w & _ & _ & _ & Hw & Heq & _).
  apply subpath_inj in Heq as <-.
  apply elem_of_settled in Hw. by apply dot_not_member in Hw.
Qed.

Lemma X4_witness :
  subpath sampleA ≠ Some ("." +:+ "/" +:+ ".") ∧
  io dotStore
  = [ReadPackage "."; ListInstalled "."; ReadPackage "./a"; ListInstalled "./a";
     ReadPackage "./a"; ListInstalled "./a"].
Proof.
  destruct (X4_dot_entry_skipped dotDisk inOrder "." true emptyHeap)
    as (_ & _ & Hreads & Hcontexts).
  split.
  - apply (Hcontexts dotStore [sampleRoot; sampleA; dotSecondA] sampleA).
    + vm_compute. reflexivity.
    + right. left.
  - unfold dotStore. rewrite Hreads. vm_compute. reflexivity.
Defined.

(** X5.  When every member's fetch settles, a run builds the root context
    and one context for every workspace entry other than [.]: an entry
    that is listed several times gets as many contexts. *)
Theorem X5_one_context_per_entry disk schedule path traverse σ0 σ checks main :
  disk_readPackage disk path = inr main →
  member_order schedule ≡ₚ seq 0 (length (members traverse main)) →
  buildChecks disk schedule path traverse σ0 = (σ, inr checks) →
  ∃ c0 cs,
    checks = c0 :: cs ∧
    subpath c0 = None ∧
    subpath <$> cs ≡ₚ (λ w, Some (path +:+ "/" +:+ w)) <$> members traverse main ∧
    length checks
    = S (length (filter (λ w, w ≠ ".")
                   (default [] (if traverse then pkg_workspaces main else None)))).
Proof.
  intros Hmain Hperm Hrun.
  destruct (buildChecks_contexts disk schedule path traverse σ0 σ checks Hrun)
    as (main' & mainInst & c0 & cs & Hm & _ & -> & _ & C0 & Hcs).
  assert (main' = main) as -> by congruence.
  apply settled_Permutation in Hperm.
  assert (Hsub : subpath <$> cs
                 = (λ w, Some (path +:+ "/" +:+ w)) <$> settled schedule traverse main).
  { clear -Hcs. induction Hcs as [|w c ws cs (sub & _ & _ & Hv) _ IH]; [done|].
    cbn. rewrite IH. f_equal. by apply (f_equal view_subpath) in Hv. }
  exists c0, cs. split; [done|]. split; [by apply (f_equal view_subpath) in C0|].
  split; [by rewrite Hsub, Hperm|].
  simpl. f_equal.
  rewrite <- (length_fmap subpath), Hsub, length_fmap, Hperm.
  unfold members. by destruct (if traverse then pkg_workspaces main else None).
Qed.

Lemma X5_witness :
  ∃ c0 cs,
    [sampleRoot; sampleA; dotSecondA] = c0 :: cs ∧
    subpath c0 = None ∧
    subpath <$> cs ≡ₚ (λ w, Some ("." +:+ "/" +:+ w)) <$> members true dotMain ∧
    length [sampleRoot; sampleA; dotSecondA]
    = S (length (filter (λ w, w ≠ ".")
                   (default [] (if true then pkg_workspaces dotMain else None)))).
Proof.
  apply (X5_one_context_per_entry dotDisk inOrder "." true emptyHeap dotStore).
  - vm_compute. reflexivity.
  - vm_compute. reflexivity.
  - vm_compute. reflexivity.
Defined.

(** ** The settle order *)

(** The members' contexts are built iff every settled member's manifest
    can be read, and then they are the contexts of [memberView], in the
    settle order. *)
Lemma settledViews_memberView disk main mainInst path ws :
  (∀ w, w ∈ ws → ∃ sub, disk_readPackage disk (path +:+ "/" +:+ w) = inr sub) →
  settledViews main mainInst (fetchOf disk path <$> ws)
  = inr (memberView disk main mainInst path <$> ws).
Proof.
  induction ws as [|w ws IH]; intros Hall; [done|].
  destruct (Hall w) as [sub Hsub]; [left|].
  cbn. rewrite IH by (intros w' Hw'; apply Hall; by right).
  unfold memberView at 2. unfold installedOrEmpty. rewrite Hsub. cbn.
  by destruct (disk_listInstalled disk (path +:+ "/" +:+ w)).
Qed.

Lemma settledViews_readable disk main mainInst path ws vs :
  settledViews main mainInst (fetchOf disk path <$> ws) = inr vs →
  ∀ w, w ∈ ws → ∃ sub, disk_readPackage disk (path +:+ "/" +:+ w) = inr sub.
Proof.
  intros Hvs%settledViews_inr w (i & Hi)%list_elem_of_lookup.
  destruct (Forall2_lookup_l _ _ _ _ _ Hvs Hi) as (v & _ & sub & Hsub & _).
  by exists sub.
Qed.

Lemma block_Permutation lines vs ws :
  vs ≡ₚ ws → block lines vs ≡ₚ block lines ws.
Proof. intros H. unfold block. by rewrite H. Qed.

(** X6.  The settle order of the members' fetches can only reorder the
    lines of a result: if a run returns a result, then so does the run on
    the same options and disk under any other settle order (assuming that
    in both every member's fetch settles), and the two results have the
    same errors and the same warnings up to their order. *)
Theorem X6_settle_order_permutes_lines checkPackageVersions checkEngineVersions disk
    schedule schedule' options σ σ1 result main :
  disk_readPackage disk (default "." (opt_path options)) = inr main →
  member_order schedule
    ≡ₚ seq 0 (length (members (default true (opt_traverseWorkspaces options)) main)) →
  member_order schedule'
    ≡ₚ seq 0 (length (members (default true (opt_traverseWorkspaces options)) main)) →
  installedCheck checkPackageVersions checkEngineVersions disk schedule
    (Some options) σ = (σ1, inr result) →
  ∃ σ2 result',
    installedCheck checkPackageVersions checkEngineVersions disk schedule'
      (Some options) σ = (σ2, inr result') ∧
    errors result' ≡ₚ errors result ∧
    warnings result' ≡ₚ warnings result ∧
    notices result' = notices result.
Proof.
  intros Hmain Hperm Hperm' Hrun.
  set (path := default "." (opt_path options)) in *.
  set (traverse := default true (opt_traverseWorkspaces options)) in *.
  assert (Hen : default false (opt_engineCheck options)
                || default false (opt_versionCheck options) = true).
  { destruct (default false (opt_engineCheck options)) eqn:He; [done|].
    destruct (default false (opt_versionCheck options)) eqn:Hv; [done|].
    unfold installedCheck in Hrun. by rewrite He, Hv in Hrun. }
  destruct (installedCheck_spec checkPackageVersions checkEngineVersions disk schedule
              options σ Hen) as (σ1' & _ & Hspec).
  destruct (installedCheck_spec checkPackageVersions checkEngineVersions disk schedule'
              options σ Hen) as (σ2 & _ & Hspec').
  rewrite Hrun in Hspec. injection Hspec as _ Hout.
  unfold outcome in Hout, Hspec'. fold path traverse in Hout, Hspec'.
  unfold contextViews in Hout, Hspec'.
  destruct (mainFetch disk schedule path) as [e|[main' mainInst]] eqn:Hfetch; [done|].
  apply mainFetch_inr in Hfetch as [Hm Hmi].
  assert (main' = main) as -> by congruence.
  assert (Hfetch' : mainFetch disk schedule' path = inr (main, mainInst))
    by (by apply mainFetch_inr).
  rewrite Hfetch' in Hspec'.
  apply settled_Permutation in Hperm, Hperm'.
  destruct (settledViews main mainInst (fetchOf disk path <$> settled schedule traverse main))
    as [e|vs] eqn:Hvs; [done|].
  pose proof (settledViews_readable _ _ _ _ _ _ Hvs) as Hall.
  rewrite settledViews_memberView in Hvs by done. injection Hvs as <-.
  rewrite settledViews_memberView in Hspec'.
  2:{ intros w Hw. apply Hall. by rewrite Hperm, <- Hperm'. }
  injection Hout as Hres. subst result.
  eexists σ2, _. split; [exact Hspec'|].
  assert (Hviews : mainView main mainInst
                     :: (memberView disk main mainInst path
                           <$> settled schedule' traverse main)
                   ≡ₚ mainView main mainInst
                     :: (memberView disk main mainInst path
                           <$> settled schedule traverse main)).
  { by rewrite Hperm, Hperm'. }
  unfold resultOf. cbn [errors warnings notices].
  split; [|split; [|done]].
  - destruct (default false (opt_versionCheck options)),
      (default false (opt_engineCheck options));
      by rewrite ?(block_Permutation _ _ _ Hviews).
  - destruct (default false (opt_versionCheck options)),
      (default false (opt_engineCheck options));
      by rewrite ?(block_Permutation _ _ _ Hviews).
Qed.

Lemma X6_witness :
  ∃ σ2 result',
    installedCheck sampleVersions sampleEngines sampleDisk reversed
      (Some versionOnly) emptyHeap = (σ2, inr result') ∧
    errors result'
    ≡ₚ [versionLine "r"; "[./a] " +:+ versionLine "x"; "[./b] " +:+ versionLine "y"] ∧
    warnings result' ≡ₚ [] ∧
    notices result' = [].
Proof.
  apply (X6_settle_order_permutes_lines sampleVersions sampleEngines sampleDisk
           inOrder reversed versionOnly emptyHeap
           (installedCheck sampleVersions sampleEngines sampleDisk inOrder
              (Some versionOnly) emptyHeap).1
           (mkResult [versionLine "r"; "[./a] " +:+ versionLine "x";
                      "[./b] " +:+ versionLine "y"] [] [])
           sampleMain).
  - vm_compute. reflexivity.
  - vm_compute. reflexivity.
  - vm_compute. apply perm_swap.
  - vm_compute. reflexivity.
Defined.

(** When the root manifest can be read, a run depends on the schedule
    through the settle order of the members only. *)
Lemma buildChecks_schedule disk schedule schedule' path traverse σ main :
  disk_readPackage disk path = inr main →
  member_order schedule = member_order schedule' →
  buildChecks disk schedule path traverse σ
  = buildChecks disk schedule' path traverse σ.
Proof.
  intros Hmain Horder. destruct schedule as [b order], schedule' as [b' order'].
  simpl in Horder. subst order'. unfold buildChecks, workspaceChecks.
  cbn [root_manifest_first member_order].
  erewrite !(bind_inr (readPackage disk path)) by reflexivity.
  erewrite !(bind_inr (listInstalled disk path)) by reflexivity.
  rewrite Hmain. by destruct (disk_listInstalled disk path).
Qed.

(** X7.  With at most one traversed workspace member the run does not
    depend on the schedule: when the root manifest can be read and every
    member's fetch settles, two runs on the same options and disk return
    the same result, or throw the same error, and leave the same store. *)
Theorem X7_one_member_same_run checkPackageVersions checkEngineVersions disk
    schedule schedule' options σ main :
  disk_readPackage disk (default "." (opt_path options)) = inr main →
  length (members (default true (opt_traverseWorkspaces options)) main) ≤ 1 →
  member_order schedule
    ≡ₚ seq 0 (length (members (default true (opt_traverseWorkspaces options)) main)) →
  member_order schedule'
    ≡ₚ seq 0 (length (members (default true (opt_traverseWorkspaces options)) main)) →
  installedCheck checkPackageVersions checkEngineVersions disk schedule
    (Some options) σ
  = installedCheck checkPackageVersions checkEngineVersions disk schedule'
      (Some options) σ.
Proof.
  intros Hmain Hlen Hperm Hperm'.
  assert (Horder : member_order schedule = member_order schedule').
  { destruct (length (members _ main)) as [|[|n]]; [| |lia]; simpl in Hperm, Hperm'.
    - apply Permutation_nil_r in Hperm, Hperm'. congruence.
    - apply Permutation_singleton_r in Hperm, Hperm'. congruence. }
  unfold installedCheck.
  destruct (negb _ && negb _); [done|].
  unfold mbind, M_bind.
  by rewrite (buildChecks_schedule disk schedule schedule' _ _ σ main Hmain Horder).
Qed.

Lemma X7_witness :
  installedCheck sampleVersions sampleEngines overlayDisk (mkSchedule true [0])
    (Some bothChecks) emptyHeap
  = installedCheck sampleVersions sampleEngines overlayDisk (mkSchedule false [0])
      (Some bothChecks) emptyHeap.
Proof.
  apply (X7_one_member_same_run sampleVersions sampleEngines overlayDisk
           (mkSchedule true [0]) (mkSchedule false [0]) bothChecks emptyHeap
           (mkPackageJson (Some {["p" := "^1.0.0"]}) (Some {["p" := "^2.0.0"]})
              None None (Some ["a"]))).
  - vm_compute. reflexivity.
  - vm_compute. lia.
  - vm_compute. reflexivity.
  - vm_compute. reflexivity.
Defined.

(** ** A package without traversed members *)

Lemma settled_nil schedule traverse main :
  members traverse main = [] → settled schedule traverse main = [].
Proof.
  intros H. unfold settled. rewrite H.
  induction (member_order schedule) as [|i order IH]; [done|].
  cbn. by rewrite lookup_nil.
Qed.

(** X8.  For a package without traversed members (traversal is disabled,
    or the manifest has no workspaces, or only the entry [.]) the result
    is what the enabled evaluators return for the root, line for line and
    without any prefix: [checkPackageVersions] is applied to the union of
    dependencies and devDependencies, the installed snapshot and the
    optionalDependencies; [checkEngineVersions] to the engines, to the
    dependencies (the union again, or the dependencies alone when
    [engineNoDev] is set) less the ignored names, to the snapshot and to
    the optionalDependencies.  Each of these sets is without the name
    [__proto__], which [Object.assign] does not copy.  The notices are
    empty. *)
Theorem X8_single_package checkPackageVersions checkEngineVersions disk schedule
    options σ main mainInst :
  default false (opt_engineCheck options) || default false (opt_versionCheck options)
    = true →
  disk_readPackage disk (default "." (opt_path options)) = inr main →
  disk_listInstalled disk (default "." (opt_path options)) = inr mainInst →
  members (default true (opt_traverseWorkspaces options)) main = [] →
  ∃ versions engines,
    versions
    = checkPackageVersions
        (delete "__proto__"
           (default ∅ (pkg_devDependencies main) ∪ default ∅ (pkg_dependencies main)))
        mainInst
        (delete "__proto__" (default ∅ (pkg_optionalDependencies main))) ∧
    engines
    = checkEngineVersions
        (default ∅ (pkg_engines main))
        (withoutIgnored (default [] (opt_engineIgnores options))
           (delete "__proto__"
              (if default false (opt_engineNoDev options)
               then default ∅ (pkg_dependencies main)
               else default ∅ (pkg_devDependencies main)
                      ∪ default ∅ (pkg_dependencies main))))
        mainInst
        (delete "__proto__" (default ∅ (pkg_optionalDependencies main))) ∧
    (installedCheck checkPackageVersions checkEngineVersions disk schedule
       (Some options) σ).2
    = inr {| errors :=
               (if default false (opt_versionCheck options)
                then result_errors versions else [])
               ++ (if default false (opt_engineCheck options)
                   then result_errors engines else []);
             warnings :=
               (if default false (opt_versionCheck options)
                then result_warnings versions else [])
               ++ (if default false (opt_engineCheck options)
                   then result_warnings engines else []);
             notices := [] |}.
Proof.
  intros Hen Hm Hmi Hnone. eexists _, _. split; [reflexivity|]. split; [reflexivity|].
  destruct (installedCheck_spec checkPackageVersions checkEngineVersions disk schedule
              options σ Hen) as (σ' & _ & Hrun).
  rewrite Hrun. simpl. unfold outcome, contextViews.
  assert (Hfetch : mainFetch disk schedule (default "." (opt_path options))
                   = inr (main, mainInst)) by (by apply mainFetch_inr).
  rewrite Hfetch, settled_nil by done. cbn [fmap list_fmap settledViews].
  unfold resultOf. rewrite !block_cons. unfold compose, block. cbn [mbind list_bind].
  rewrite !fmap_viewLabel_root, !app_nil_r.
  unfold versionResult, engineResult, engineView.
  cbn [mainView view_engines view_dependencies view_requiredDependencies
         view_optionalDependencies view_installedDependencies].
  rewrite copyOf_union.
  assert (Hcopy : copyOf (if default false (opt_engineNoDev options)
                          then default ∅ (pkg_dependencies main)
                          else copyOf (default ∅ (pkg_devDependencies main)
                                         ∪ default ∅ (pkg_dependencies main)))
                  = copyOf (if default false (opt_engineNoDev options)
                            then default ∅ (pkg_dependencies main)
                            else default ∅ (pkg_devDependencies main)
                                   ∪ default ∅ (pkg_dependencies main))).
  { destruct (default false (opt_engineNoDev options)); [done|apply copyOf_idemp]. }
  by rewrite Hcopy.
Qed.

Lemma X8_witness :
  (installedCheck sampleVersions sampleEngines sampleDisk inOrder
     (Some noTraversal) emptyHeap).2
  = inr (mkResult [versionLine "r"; engineLine "r"] [] []).
Proof.
  destruct (X8_single_package sampleVersions sampleEngines sampleDisk inOrder
              noTraversal emptyHeap sampleMain sampleInstalled)
    as (versions & engines & -> & -> & ->).
  - reflexivity.
  - vm_compute. reflexivity.
  - vm_compute. reflexivity.
  - reflexivity.
  - vm_compute. reflexivity.
Defined.

(** ** A run without error lines *)

Lemma block_nil lines vs :
  block lines vs = [] ↔ Forall (λ v, lines v = []) vs.
Proof.
  induction vs as [|v vs IH].
  - split; [constructor|done].
  - rewrite block_cons, Forall_cons, <- IH. split.
    + intros [H1 H2]%app_eq_nil. split; [|done]. by apply fmap_nil_inv in H1.
    + intros [-> ->]. done.
Qed.

Lemma lines_nil (versionCheck engineCheck : bool)
    (versionLines engineLines : CheckView → list string) vs :
  (if versionCheck then block versionLines vs else [])
  ++ (if engineCheck then block engineLines vs else []) = [] ↔
  ∀ v, v ∈ vs →
    (versionCheck = true → versionLines v = []) ∧
    (engineCheck = true → engineLines v = []).
Proof.
  rewrite app_nil. split.
  - intros [H1 H2] v Hv. split; intros ->.
    + apply block_nil in H1. by eapply Forall_forall in H1.
    + apply block_nil in H2. by eapply Forall_forall in H2.
  - intros H. split; [destruct versionCheck|destruct engineCheck]; try done;
      apply block_nil, Forall_forall; intros v Hv; by apply H.
Qed.

(** X9.  The errors of a result are empty exactly when no enabled
    evaluator returned an error for any context of the run, and likewise
    the warnings. *)
Theorem X9_no_lines checkPackageVersions checkEngineVersions disk schedule
    options σ σ' result :
  installedCheck checkPackageVersions checkEngineVersions disk schedule
    (Some options) σ = (σ', inr result) →
  ∃ vs,
    contextViews disk schedule (default "." (opt_path options))
      (default true (opt_traverseWorkspaces options)) = inr vs ∧
    (errors result = [] ↔
     ∀ v, v ∈ vs →
       (default false (opt_versionCheck options) = true →
        result_errors (versionResult checkPackageVersions v) = []) ∧
       (default false (opt_engineCheck options) = true →
        result_errors (engineResult checkEngineVersions
                         (default false (opt_engineNoDev options))
                         (default [] (opt_engineIgnores options)) v) = [])) ∧
    (warnings result = [] ↔
     ∀ v, v ∈ vs →
       (default false (opt_versionCheck options) = true →
        result_warnings (versionResult checkPackageVersions v) = []) ∧
       (default false (opt_engineCheck options) = true →
        result_warnings (engineResult checkEngineVersions
                           (default false (opt_engineNoDev options))
                           (default [] (opt_engineIgnores options)) v) = [])).
Proof.
  intros Hrun.
  assert (Hen : default false (opt_engineCheck options)
                || default false (opt_versionCheck options) = true).
  { destruct (default false (opt_engineCheck options)) eqn:He; [done|].
    destruct (default false (opt_versionCheck options)) eqn:Hv; [done|].
    unfold installedCheck in Hrun. by rewrite He, Hv in Hrun. }
  destruct (installedCheck_spec checkPackageVersions checkEngineVersions disk schedule
              options σ Hen) as (σ1 & _ & Hspec).
  rewrite Hrun in Hspec. injection Hspec as _ Hout. unfold outcome in Hout.
  destruct (contextViews _ _ _ _) as [e|vs]; [done|].
  injection Hout as Hres. subst result. exists vs. split; [done|].
  unfold resultOf. cbn [errors warnings]. split; apply lines_nil.
Qed.

Lemma X9_witness :
  ∃ vs,
    contextViews sampleDisk inOrder "." true = inr vs ∧
    ([versionLine "r"; "[./a] " +:+ versionLine "x"; "[./b] " +:+ versionLine "y"] = [] ↔
     ∀ v, v ∈ vs →
       (true = true → result_errors (versionResult sampleVersions v) = []) ∧
       (false = true → result_errors (engineResult sampleEngines false [] v) = [])) ∧
    (@nil string = [] ↔
     ∀ v, v ∈ vs →
       (true = true → result_warnings (versionResult sampleVersions v) = []) ∧
       (false = true → result_warnings (engineResult sampleEngines false [] v) = [])).
Proof.
  apply (X9_no_lines sampleVersions sampleEngines sampleDisk inOrder versionOnly
           emptyHeap
           (installedCheck sampleVersions sampleEngines sampleDisk inOrder
              (Some versionOnly) emptyHeap).1
           (mkResult [versionLine "r"; "[./a] " +:+ versionLine "x";
                      "[./b] " +:+ versionLine "y"] [] [])).
  vm_compute. reflexivity.
Defined.

(** ** What a member inherits *)

Lemma withoutIgnored_empty engineIgnores : withoutIgnored engineIgnores ∅ = ∅.
Proof.
  apply map_eq. intros name. rewrite lookup_withoutIgnored, lookup_empty.
  by case_decide.
Qed.

(** X10.  A workspace member whose manifest has neither [dependencies]
    nor [devDependencies] is version-checked against nothing: its
    required set is empty, whatever the root declares, and
    [checkPackageVersions] is called with the empty set for it.  The
    root's dependencies are inherited by the member's [dependencies]
    property only, which the engine check reads when [engineNoDev] is set:
    then [checkEngineVersions] is called, for this member, with the root's
    dependencies less [__proto__] and the ignored names, and otherwise
    with the empty set. *)
Theorem X10_member_without_dependencies checkPackageVersions checkEngineVersions
    disk schedule path traverse σ0 σ checks c sp main sub :
  buildChecks disk schedule path traverse σ0 = (σ, inr checks) →
  c ∈ checks → subpath c = Some sp →
  disk_readPackage disk path = inr main →
  disk_readPackage disk sp = inr sub →
  pkg_dependencies sub = None → pkg_devDependencies sub = None →
  objectAt σ (requiredDependencies c) = ∅ ∧
  objectAt σ (dependencies c) = default ∅ (pkg_dependencies main) ∧
  ∀ σ1, extends σ σ1 →
    (∀ acc,
       versionStep checkPackageVersions acc c σ1
       = (σ1, inr (addLines acc c
                     (checkPackageVersions ∅ (mapAt σ (installedDependencies c))
                        (objectAt σ (optionalDependencies c)))))) ∧
    ∀ engineIgnores acc,
      (∃ σ2,
         engineStep checkEngineVersions false engineIgnores acc c σ1
         = (σ2, inr (addLines acc c
                       (checkEngineVersions (objectAt σ (engines c)) ∅
                          (mapAt σ (installedDependencies c))
                          (objectAt σ (optionalDependencies c)))))) ∧
      (∃ σ2,
         engineStep checkEngineVersions true engineIgnores acc c σ1
         = (σ2, inr (addLines acc c
                       (checkEngineVersions (objectAt σ (engines c))
                          (withoutIgnored engineIgnores
                             (delete "__proto__" (default ∅ (pkg_dependencies main))))
                          (mapAt σ (installedDependencies c))
                          (objectAt σ (optionalDependencies c)))))).
Proof.
  intros Hrun Hc Hsp Hmain Hsub Hd Hdd.
  destruct (buildChecks_member disk schedule path traverse σ0 σ checks c sp Hrun Hc Hsp)
    as (main' & mainInst & sub' & w & c0 & Hm & _ & _ & _ & Hs & V & _ & _ & _ & Hv).
  assert (main' = main) as -> by congruence.
  assert (sub' = sub) as -> by congruence.
  assert (Hreq : objectAt σ (requiredDependencies c) = ∅).
  { apply (f_equal view_requiredDependencies) in Hv.
    cbn [viewCheck workspaceView view_requiredDependencies] in Hv.
    rewrite Hv, Hd, Hdd. cbn [default from_option id].
    unfold copyOf. by rewrite delete_empty, (left_id_L ∅ (∪)). }
  assert (Hdep : objectAt σ (dependencies c) = default ∅ (pkg_dependencies main)).
  { apply (f_equal view_dependencies) in Hv.
    cbn [viewCheck workspaceView view_dependencies] in Hv.
    by rewrite Hv, Hd. }
  do 2 (split; [done|]).
  intros σ1 E1.
  assert (V1 : validCheck σ1 c) by (by eapply extends_validCheck).
  pose proof (extends_viewCheck σ σ1 c E1 V) as Hview.
  split.
  - intros acc.
    assert (Hstep : versionStep checkPackageVersions acc c σ1
                    = (σ1, inr (addLines acc c
                                  (versionResult checkPackageVersions (viewCheck σ1 c)))))
      by reflexivity.
    rewrite Hstep, Hview. unfold versionResult.
    cbn [viewCheck view_requiredDependencies view_optionalDependencies
           view_installedDependencies].
    by rewrite Hreq.
  - intros engineIgnores acc. split; eexists;
      rewrite engineStep_run by done; rewrite Hview;
      unfold engineResult, engineView;
      cbn [viewCheck view_engines view_dependencies view_requiredDependencies
             view_optionalDependencies view_installedDependencies].
    + rewrite Hreq. unfold copyOf. by rewrite delete_empty, withoutIgnored_empty.
    + by rewrite Hdep.
Qed.

Lemma X10_witness :
  objectAt bareMemberStore (requiredDependencies bareA) = ∅ ∧
  objectAt bareMemberStore (dependencies bareA) = {["r" := "1.0.0"]} ∧
  (∃ σ2,
     engineStep sampleEngines true [] ([], []) bareA bareMemberStore
     = (σ2, inr (["[./a] " +:+ engineLine "r"], []))) ∧
  (∃ σ2,
     engineStep sampleEngines false [] ([], []) bareA bareMemberStore
     = (σ2, inr ([], []))).
Proof.
  destruct (X10_member_without_dependencies sampleVersions sampleEngines bareMemberDisk
              (mkSchedule true [0]) "."
              true emptyHeap bareMemberStore [sampleRoot; bareA] bareA "./a"
              (mkPackageJson (Some {["r" := "1.0.0"]}) None None None (Some ["a"]))
              (mkPackageJson None None None None None))
    as (Hrequired & Hdependencies & Hsteps).
  - vm_compute. reflexivity.
  - right. left.
  - reflexivity.
  - vm_compute. reflexivity.
  - vm_compute. reflexivity.
  - reflexivity.
  - reflexivity.
  - split; [exact Hrequired|]. split; [exact Hdependencies|].
    destruct (Hsteps bareMemberStore) as (_ & Hengine); [reflexivity|].
    destruct (Hengine [] ([], [])) as ((σ2 & Hoff) & (σ3 & Hon)).
    split.
    + exists σ3. rewrite Hon. vm_compute. reflexivity.
    + exists σ2. rewrite Hoff. vm_compute. reflexivity.
Defined.

(** ** The ignored names *)





(** ** Which member's error aborts the run *)

(** The rejection of the members' fetches is that of the first member, in
    the order in which they settle, whose manifest cannot be read. *)
Lemma settledViews_first_failure disk main mainInst path ws e :
  settledViews main mainInst (fetchOf disk path <$> ws) = inl e →
  ∃ before w after cause,
    ws = before ++ w :: after ∧
    (∀ u, u ∈ before → ∃ sub, disk_readPackage disk (path +:+ "/" +:+ u) = inr sub) ∧
    disk_readPackage disk (path +:+ "/" +:+ w) = inl cause ∧
    e = ErrorWithCause "Failed to read workspace package.json" cause.
Proof.
  induction ws as [|w ws IH]; cbn; [done|].
  destruct (disk_readPackage disk (path +:+ "/" +:+ w)) as [cause|sub] eqn:Hw; cbn.
  - intros He. exists [], w, ws, cause. split; [done|].
    split; [by intros u Hu%elem_of_nil|]. split; [done|].
    destruct (disk_listInstalled disk (path +:+ "/" +:+ w)); cbn in He; congruence.
  - intros He.
    assert (Hrest : settledViews main mainInst (fetchOf disk path <$> ws) = inl e).
    { destruct (disk_listInstalled disk (path +:+ "/" +:+ w)); cbn in He;
        destruct (settledViews _ _ _) as [e'|vs']; congruence. }
    destruct (IH Hrest) as (before & w' & after & cause & -> & Hb & Hr & ->).
    exists (w :: before), w', after, cause. split; [done|].
    split; [|done].
    intros u [->|Hu]%elem_of_cons; [by exists sub|by apply Hb].
Qed.

(** X12.  When the root reads succeed, every member's fetch settles, and
    the manifest of some traversed member cannot be read, the run throws
    [Failed to read workspace package.json]; its cause is the read error
    of the first member, in the order in which the fetches settle, whose
    manifest cannot be read.  So when the failing members fail with
    different causes the error depends on the settle order, and when they
    all fail with the same cause, as when there is one, the error is the
    same under every settle order. *)
Theorem X12_member_manifest_error checkPackageVersions checkEngineVersions disk
    schedule options σ main mainInst w cause :
  default false (opt_engineCheck options) || default false (opt_versionCheck options)
    = true →
  disk_readPackage disk (default "." (opt_path options)) = inr main →
  disk_listInstalled disk (default "." (opt_path options)) = inr mainInst →
  member_order schedule
    ≡ₚ seq 0 (length (members (default true (opt_traverseWorkspaces options)) main)) →
  w ∈ members (default true (opt_traverseWorkspaces options)) main →
  disk_readPackage disk (default "." (opt_path options) +:+ "/" +:+ w) = inl cause →
  (∃ before first after cause',
     settled schedule (default true (opt_traverseWorkspaces options)) main
       = before ++ first :: after ∧
     (∀ u, u ∈ before →
        ∃ sub, disk_readPackage disk (default "." (opt_path options) +:+ "/" +:+ u)
               = inr sub) ∧
     disk_readPackage disk (default "." (opt_path options) +:+ "/" +:+ first)
       = inl cause' ∧
     (installedCheck checkPackageVersions checkEngineVersions disk schedule
        (Some options) σ).2
     = inl (ErrorWithCause "Failed to read workspace package.json" cause')) ∧
  ((∀ w' cause',
      w' ∈ members (default true (opt_traverseWorkspaces options)) main →
      disk_readPackage disk (default "." (opt_path options) +:+ "/" +:+ w') = inl cause' →
      cause' = cause) →
   ∀ schedule',
     member_order schedule'
       ≡ₚ seq 0 (length (members (default true (opt_traverseWorkspaces options)) main)) →
     (installedCheck checkPackageVersions checkEngineVersions disk schedule'
        (Some options) σ).2
     = inl (ErrorWithCause "Failed to read workspace package.json" cause)).
Proof.
  intros Hen Hm Hmi Hperm Hw Hfail.
  assert (Hthrows : ∀ schedule',
    member_order schedule'
      ≡ₚ seq 0 (length (members (default true (opt_traverseWorkspaces options)) main)) →
    ∃ before first after cause',
      settled schedule' (default true (opt_traverseWorkspaces options)) main
        = before ++ first :: after ∧
      (∀ u, u ∈ before →
         ∃ sub, disk_readPackage disk (default "." (opt_path options) +:+ "/" +:+ u)
                = inr sub) ∧
      disk_readPackage disk (default "." (opt_path options) +:+ "/" +:+ first)
        = inl cause' ∧
      (installedCheck checkPackageVersions checkEngineVersions disk schedule'
         (Some options) σ).2
      = inl (ErrorWithCause "Failed to read workspace package.json" cause')).
  { intros schedule' Hperm'.
    destruct (installedCheck_spec checkPackageVersions checkEngineVersions disk schedule'
                options σ Hen) as (σ' & _ & ->).
    cbn [snd]. unfold outcome, contextViews.
    rewrite (proj2 (mainFetch_inr disk schedule' _ main mainInst)) by done.
    apply settled_Permutation in Hperm'.
    destruct (settledViews _ _ _) as [e|vs] eqn:Hvs.
    - apply settledViews_first_failure in Hvs
        as (before & first & after & cause' & Hs & Hb & Hr & ->).
      by exists before, first, after, cause'.
    - destruct (settledViews_readable _ _ _ _ _ _ Hvs w) as [sub Hsub];
        [by rewrite Hperm'|congruence]. }
  split; [by apply Hthrows|].
  intros Hsame schedule' Hperm'.
  destruct (Hthrows schedule' Hperm') as (before & first & after & cause' & Hs & _ & Hr & ->).
  rewrite (Hsame first cause'); [done| |done].
  apply (elem_of_settled schedule'). rewrite Hs.
  apply elem_of_app. right. left.
Qed.

Lemma X12_witness :
  (installedCheck sampleVersions sampleEngines twoBrokenDisk inOrder
     (Some versionOnly) emptyHeap).2
  = inl (ErrorWithCause "Failed to read workspace package.json" (Error "ENOENT")) ∧
  (installedCheck sampleVersions sampleEngines twoBrokenDisk reversed
     (Some versionOnly) emptyHeap).2
  = inl (ErrorWithCause "Failed to read workspace package.json" (Error "EACCES")) ∧
  ∀ schedule', member_order schedule' ≡ₚ [0; 1] →
    (installedCheck sampleVersions sampleEngines brokenDisk schedule'
       (Some versionOnly) emptyHeap).2
    = inl (ErrorWithCause "Failed to read workspace package.json" (Error "ENOENT")).
Proof.
  assert (Hen : default false (opt_engineCheck versionOnly)
                || default false (opt_versionCheck versionOnly) = true) by reflexivity.
  assert (Hmain : ∀ disk, disk_readPackage disk "." = inr sampleMain →
            disk_readPackage disk (default "." (opt_path versionOnly)) = inr sampleMain)
    by (by intros disk H).
  assert (Hinst : ∀ disk, disk_listInstalled disk = disk_listInstalled sampleDisk →
            disk_listInstalled disk (default "." (opt_path versionOnly))
            = inr sampleInstalled).
  { intros disk ->. vm_compute. reflexivity. }
  assert (Ha : disk_readPackage twoBrokenDisk
                 (default "." (opt_path versionOnly) +:+ "/" +:+ "a")
               = inl (Error "ENOENT")) by (vm_compute; reflexivity).
  assert (Hb : disk_readPackage twoBrokenDisk
                 (default "." (opt_path versionOnly) +:+ "/" +:+ "b")
               = inl (Error "EACCES")) by (vm_compute; reflexivity).
  split; [|split].
  - destruct (proj1 (X12_member_manifest_error sampleVersions sampleEngines
                       twoBrokenDisk inOrder versionOnly emptyHeap sampleMain
                       sampleInstalled "a" (Error "ENOENT") Hen
                       (Hmain twoBrokenDisk eq_refl) (Hinst twoBrokenDisk eq_refl)
                       (reflexivity _) (list_elem_of_here _ _) Ha))
      as (before & first & after & cause' & Hs & Hbefore & Hr & ->).
    change (["a"; "b"] = before ++ first :: after) in Hs.
    destruct before as [|u before].
    + injection Hs as <- _. rewrite Ha in Hr. by injection Hr as <-.
    + injection Hs as <- _. destruct (Hbefore "a") as [sub Hsub]; [left|].
      rewrite Ha in Hsub. discriminate Hsub.
  - destruct (proj1 (X12_member_manifest_error sampleVersions sampleEngines
                       twoBrokenDisk reversed versionOnly emptyHeap sampleMain
                       sampleInstalled "a" (Error "ENOENT") Hen
                       (Hmain twoBrokenDisk eq_refl) (Hinst twoBrokenDisk eq_refl)
                       (perm_swap 0 1 []) (list_elem_of_here _ _) Ha))
      as (before & first & after & cause' & Hs & Hbefore & Hr & ->).
    change (["b"; "a"] = before ++ first :: after) in Hs.
    destruct before as [|u before].
    + injection Hs as <- _. rewrite Hb in Hr. by injection Hr as <-.
    + injection Hs as <- _. destruct (Hbefore "b") as [sub Hsub]; [left|].
      rewrite Hb in Hsub. discriminate Hsub.
  - apply (proj2 (X12_member_manifest_error sampleVersions sampleEngines
                    brokenDisk inOrder versionOnly emptyHeap sampleMain
                    sampleInstalled "a" (Error "ENOENT") Hen
                    (Hmain brokenDisk eq_refl) (Hinst brokenDisk eq_refl)
                    (reflexivity _) (list_elem_of_here _ _) eq_refl)).
    intros w' cause' Hw' Hr. change (w' ∈ ["a"; "b"]) in Hw'.
    apply elem_of_cons in Hw' as [->|Hw'].
    + vm_compute in Hr. by injection Hr as <-.
    + apply list_elem_of_singleton in Hw' as ->. vm_compute in Hr. discriminate Hr.
Defined.
